(** * nap: a logical database over one primary and N replicas

    A shallow embedding of [db.go] (package [nap]) and the statements of its
    specification.  The physical connection handles ([*sql.DB]) are external
    collaborators: they are modelled as recording doubles whose answers are
    given by an arbitrary oracle over the history of calls. *)

From Stdlib Require Import ZArith Lia Ascii String.
From stdpp Require Import list strings.

Local Open Scope Z_scope.

(** ** Go machine integers (64-bit platform) *)

Module GoInt.

Definition two64 : Z := 2 ^ 64.
Definition two63 : Z := 2 ^ 63.

(** Conversion to [uint64]: reduction modulo 2^64. *)
Definition uint64 (z : Z) : Z := z mod two64.

(** Conversion to [int] (two's complement, 64 bits). *)
Definition int (z : Z) : Z := (z + two63) mod two64 - two63.

Definition is_int (z : Z) : Prop := - two63 <= z < two63.
Definition is_uint64 (z : Z) : Prop := 0 <= z < two64.

End GoInt.

(** ** [strings.Split] with a one-byte separator

    [strings.Split(s, sep)] cuts [s] at every occurrence of [sep]; the pieces
    between separators are kept even when empty, and a string without
    separator (the empty string included) yields one piece. *)

Module GoStrings.

Fixpoint Split (s : string) (sep : ascii) : list string :=
  match s with
  | EmptyString => [EmptyString]
  | String c s' =>
      if Ascii.eqb c sep then EmptyString :: Split s' sep
      else match Split s' sep with
           | [] => [String c EmptyString]
           | piece :: pieces => String c piece :: pieces
           end
  end.

(** [strings.Count(s, sep)] for a one-byte separator. *)
Fixpoint Count (s : string) (sep : ascii) : nat :=
  match s with
  | EmptyString => O
  | String c s' => ((if Ascii.eqb c sep then 1 else 0) + Count s' sep)%nat
  end.

(** [strings.Join(pieces, sep)] for a one-byte separator. *)
Fixpoint Join (pieces : list string) (sep : ascii) : string :=
  match pieces with
  | [] => EmptyString
  | [p] => p
  | p :: ps => (p ++ String sep (Join ps sep))%string
  end.

End GoStrings.

(** The separator of data-source names. *)
Definition semicolon : ascii := ";"%char.

(** ** The external collaborator: [database/sql] *)

(** The values exchanged with [database/sql] are opaque to this package. *)
Class SqlTypes := {
  cause : Type;          (* failures raised by a driver *)
  handle : Type;         (* a live [*sql.DB] *)
  sql_Stmt : Type;       (* a live [*sql.Stmt] *)
  driver_Driver : Type;  (* [driver.Driver] *)
  sql_Tx : Type;         (* [*sql.Tx] *)
  sql_TxOptions : Type;  (* [*sql.TxOptions] *)
  sql_Result : Type;     (* [sql.Result] *)
  sql_Rows : Type;       (* [*sql.Rows] *)
  sql_Row : Type;        (* [*sql.Row] *)
  Context : Type;        (* [context.Context] *)
  Arg : Type;            (* [interface{}] placeholder arguments *)
  addr : Type            (* addresses of [DB] objects *)
}.

(** Go's [error] values.  [None : option error] is the [nil] error.  A
    compound failure holds the ordered sequence of its causes. *)
#[warnings="-register-all"]
Inductive error `{SqlTypes} : Type :=
  | Cause (c : cause)
  | Compound (es : list error).

(** "Is this a multi-cause failure" and "list all causes". *)
Definition is_compound `{SqlTypes} (e : error) : bool :=
  match e with Compound _ => true | Cause _ => false end.

Definition causes `{SqlTypes} (e : error) : list error :=
  match e with Compound es => es | Cause _ => [e] end.

(** The method set of interface [SQLDB], with the arguments of a call. *)
Inductive call `{SqlTypes} : Type :=
  | CClose
  | CDriver
  | CBegin
  | CBeginTx (ctx : Context) (opts : sql_TxOptions)
  | CExec (query : string) (args : list Arg)
  | CExecContext (ctx : Context) (query : string) (args : list Arg)
  | CPing
  | CPingContext (ctx : Context)
  | CPrepare (query : string)
  | CPrepareContext (ctx : Context) (query : string)
  | CQuery (query : string) (args : list Arg)
  | CQueryContext (ctx : Context) (query : string) (args : list Arg)
  | CQueryRow (query : string) (args : list Arg)
  | CQueryRowContext (ctx : Context) (query : string) (args : list Arg)
  | CSetConnMaxLifetime (d : Z)
  | CSetMaxIdleConns (n : Z)
  | CSetMaxOpenConns (n : Z).

(** The result type of each method, as declared in [SQLDB]. *)
Definition resp `{SqlTypes} (c : call) : Type :=
  match c with
  | CClose | CPing | CPingContext _ => option error
  | CDriver => driver_Driver
  | CBegin | CBeginTx _ _ => (sql_Tx * option error)%type
  | CExec _ _ | CExecContext _ _ _ => (sql_Result * option error)%type
  | CPrepare _ | CPrepareContext _ _ => (option sql_Stmt * option error)%type
  | CQuery _ _ | CQueryContext _ _ _ => (sql_Rows * option error)%type
  | CQueryRow _ _ | CQueryRowContext _ _ _ => sql_Row
  | CSetConnMaxLifetime _ | CSetMaxIdleConns _ | CSetMaxOpenConns _ => unit
  end.

(** What a recording double observes: every [sql.Open] and every method call
    on a handle, each with the answer that was given. *)
Inductive event `{SqlTypes} : Type :=
  | EvOpen (driverName dsn : string) (r : option handle * option error)
  | EvCall (h : handle) (c : call) (r : resp c).

(** The behaviour of [database/sql]: any function of the request and of the
    history of earlier events. *)
Record Backend `{SqlTypes} := {
  sql_Open : string -> string -> list event -> option handle * option error;
  respond : handle -> forall c : call, list event -> resp c
}.

(** ** Program states and the monad of the embedding *)

(** An [SQLDB] interface value; [None] is [nil]. *)
Abbreviation SQLDB := (option handle) (only parsing).

Record DB `{SqlTypes} := {
  Pdbs : list SQLDB;  (* Physical databases *)
  count : Z           (* Monotonically incrementing counter on each query *)
}.

(** The receiver object together with the record of the doubles. *)
Record State `{SqlTypes} := {
  obj : DB;
  trace : list event
}.

Inductive panic := IndexOutOfRange | NilDereference.

Inductive outcome (A : Type) : Type :=
  | Ok (a : A)
  | Panic (p : panic).
Arguments Ok {A} a.
Arguments Panic {A} p.

Definition M (S A : Type) : Type := S -> outcome A * S.

Definition ret {S A} (a : A) : M S A := fun s => (Ok a, s).

Definition bind {S A B} (m : M S A) (k : A -> M S B) : M S B :=
  fun s => match m s with
           | (Ok a, s') => k a s'
           | (Panic p, s') => (Panic p, s')
           end.

Definition raise {S A} (p : panic) : M S A := fun s => (Panic p, s).

Declare Scope go_scope.
Delimit Scope go_scope with go.
Notation "x <- m ;; k" := (bind m (fun x => k))
  (at level 100, m at next level, right associativity) : go_scope.
Notation "m ;;; k" := (bind m (fun _ => k))
  (at level 100, right associativity) : go_scope.
Local Open Scope go_scope.

(** [l[i]] with Go's bounds check. *)
Definition index {S A} (l : list A) (i : nat) : M S A :=
  match l !! i with
  | Some x => ret x
  | None => raise IndexOutOfRange
  end.

(** [l[i]] for an [int] index. *)
Definition index_int {S A} (l : list A) (i : Z) : M S A :=
  if (i <? 0)%Z then raise IndexOutOfRange else index l (Z.to_nat i).

(** Sequential [for i := range ...] over the given indices. *)
Fixpoint for_each {S} (l : list nat) (body : nat -> M S unit) : M S unit :=
  match l with
  | [] => ret tt
  | i :: l' => body i ;;; for_each l' body
  end.

(** Running a computation on the receiver next to a captured local. *)
Definition with_local {L S A} (m : M S A) : M (L * S) A :=
  fun ls => let '(r, s') := m ls.2 in (r, (ls.1, s')).

(** [local[i] = v] on a captured slice. *)
Definition store_local {S A} (i : nat) (v : A) : M (list A * S) unit :=
  fun ls => if decide (i < length ls.1)%nat
            then (Ok tt, (<[i:=v]> ls.1, ls.2))
            else (Panic IndexOutOfRange, ls).

(** ** The scatter executor *)

(** The order in which [n] concurrently dispatched operations complete.  A
    schedule is a list of choices: at each step the choice (modulo the number
    of operations still pending) picks the next operation to complete; when
    the list runs out the first pending operation is taken. *)
Fixpoint interleave (fuel : nat) (sched : list nat) (pending : list nat)
  : list nat :=
  match fuel with
  | O => []
  | S fuel' =>
      match pending with
      | [] => []
      | first :: _ =>
          let k := (hd 0 sched `mod` length pending)%nat in
          nth k pending first :: interleave fuel' (tl sched) (delete k pending)
      end
  end.

Definition completion_order (sched : list nat) (n : nat) : list nat :=
  interleave n sched (seq 0 n).

(** Runs the operations one after the other in the given order and returns
    their results in that order. *)
Fixpoint run_all {S R} (fn : nat -> M S R) (order : list nat) : M S (list R) :=
  match order with
  | [] => ret []
  | i :: rest => r <- fn i ;; rs <- run_all fn rest ;; ret (r :: rs)
  end.

(** The failures among the results, in completion order. *)
Definition failures {E} (rs : list (option E)) : list E := omap id rs.

(** Modelled from the spec: the error aggregation policy of the scatter
    executor, whose definition is not in [db.go].  No failure reports
    success, exactly one failure is propagated as-is, and several failures
    are combined into one compound failure that preserves each cause. *)
Definition aggregate `{SqlTypes} (errs : list error) : option error :=
  match errs with
  | [] => None
  | [e] => Some e
  | _ => Some (Compound errs)
  end.

(** Modelled from the spec: the function [scatter], called by [Open],
    [Close], [Ping], [PingContext], [Prepare] and [PrepareContext] but
    defined outside [db.go].  It executes the operation for every index in
    [0, n), waits for all of them and aggregates their failures.  Each
    operation is taken as one atomic step of the interleaving chosen by
    [sched]. *)
Definition scatter `{SqlTypes} {S} (sched : list nat) (n : nat)
    (fn : nat -> M S (option error)) : M S (option error) :=
  rs <- run_all fn (completion_order sched n) ;;
  ret (aggregate (failures rs)).

(** ** The logical database ([db.go]) *)

(** Modelled from the spec: the struct [stmt] behind the [Stmt] values that
    [Prepare] returns is declared outside [db.go]; its two fields are those
    of the literal [&stmt{db: db, stmts: stmts}].  [None] in [stmts] is a
    [nil] statement. *)
Record stmt `{SqlTypes} := {
  db : addr;
  stmts : list (option sql_Stmt)
}.

Section Nap.

Context `{T : SqlTypes}.

(** The driver layer the program runs against. *)
Variable W : Backend.

(** The address of the receiver, whose contents the state carries. *)
Variable this : addr.

(** *** Primitive steps *)

(** [sql.Open(driverName, dsn)], recorded. *)
Definition open (driverName dsn : string)
  : M State (option handle * option error) :=
  fun s =>
    let r := sql_Open W driverName dsn (trace s) in
    (Ok r, {| obj := obj s; trace := trace s ++ [EvOpen driverName dsn r] |}).

(** A method call on a live handle, recorded. *)
Definition invoke (h : handle) (c : call) : M State (resp c) :=
  fun s =>
    let r := respond W h c (trace s) in
    (Ok r, {| obj := obj s; trace := trace s ++ [EvCall h c r] |}).

(** A method call on an interface value: [nil] panics. *)
Definition on (x : SQLDB) (c : call) : M State (resp c) :=
  match x with
  | Some h => invoke h c
  | None => raise NilDereference
  end.

(** Reading [db.Pdbs]. *)
Definition pdbs : M State (list SQLDB) :=
  fun s => (Ok (Pdbs (obj s)), s).

(** [db.Pdbs[i] = x]. *)
Definition store_Pdbs (i : nat) (x : SQLDB) : M State unit :=
  fun s =>
    if decide (i < length (Pdbs (obj s)))%nat
    then (Ok tt, {| obj := {| Pdbs := <[i:=x]> (Pdbs (obj s));
                              count := count (obj s) |};
                    trace := trace s |})
    else (Panic IndexOutOfRange, s).

(** [atomic.AddUint64(&db.count, delta)]: one indivisible step that stores
    and returns the new value. *)
Definition AddUint64_count (delta : Z) : M State Z :=
  fun s =>
    let v := GoInt.uint64 (count (obj s) + delta) in
    (Ok v, {| obj := {| Pdbs := Pdbs (obj s); count := v |};
              trace := trace s |}).

(** *** Replica selection *)

Definition replica (n : Z) : M State Z :=
  if (n <=? 1)%Z then ret 0%Z
  else
    c <- AddUint64_count 1 ;;
    ret (GoInt.int (GoInt.uint64
           (1 + c mod GoInt.uint64 (GoInt.int (n - 1))))).

Definition Replica : M State SQLDB :=
  l <- pdbs ;;
  i <- replica (Z.of_nat (length l)) ;;
  index_int l i.

Definition Slave : M State SQLDB := Replica.

Definition Primary : M State SQLDB :=
  l <- pdbs ;; index l 0.

Definition Master : M State SQLDB := Primary.

(** *** Construction *)

Definition open_slot (driverName : string) (conns : list string) (i : nat)
  : M State (option error) :=
  dsn <- index conns i ;;
  r <- open driverName dsn ;;
  store_Pdbs i r.1 ;;;
  ret r.2.

Definition Open (sched : list nat) (driverName dataSourceNames : string)
  : M (list event) (option DB * option error) :=
  fun w =>
    let conns := GoStrings.Split dataSourceNames semicolon in
    let db0 := {| Pdbs := replicate (length conns) None; count := 0 |} in
    match scatter sched (length (Pdbs db0)) (open_slot driverName conns)
                  {| obj := db0; trace := w |} with
    | (Ok (Some err), s) => (Ok (None, Some err), trace s)
    | (Ok None, s) => (Ok (Some (obj s), None), trace s)
    | (Panic p, s) => (Panic p, trace s)
    end.

(** *** Operations on every physical database *)

Definition slot_call (c : call) (i : nat) : M State (resp c) :=
  l <- pdbs ;; x <- index l i ;; on x c.

Definition Close (sched : list nat) : M State (option error) :=
  l <- pdbs ;; scatter sched (length l) (slot_call CClose).

Definition Ping (sched : list nat) : M State (option error) :=
  l <- pdbs ;; scatter sched (length l) (slot_call CPing).

Definition PingContext (sched : list nat) (ctx : Context)
  : M State (option error) :=
  l <- pdbs ;; scatter sched (length l) (slot_call (CPingContext ctx)).

Definition SetMaxIdleConns (n : Z) : M State unit :=
  l <- pdbs ;;
  for_each (seq 0 (length l)) (slot_call (CSetMaxIdleConns n)).

Definition SetMaxOpenConns (n : Z) : M State unit :=
  l <- pdbs ;;
  for_each (seq 0 (length l)) (slot_call (CSetMaxOpenConns n)).

Definition SetConnMaxLifetime (d : Z) : M State unit :=
  l <- pdbs ;;
  for_each (seq 0 (length l)) (slot_call (CSetConnMaxLifetime d)).

(** *** Operations on the primary *)

Definition Driver : M State driver_Driver := slot_call CDriver 0.

Definition Begin : M State (sql_Tx * option error) := slot_call CBegin 0.

Definition BeginTx (ctx : Context) (opts : sql_TxOptions)
  : M State (sql_Tx * option error) :=
  slot_call (CBeginTx ctx opts) 0.

Definition Exec (query : string) (args : list Arg)
  : M State (sql_Result * option error) :=
  slot_call (CExec query args) 0.

Definition ExecContext (ctx : Context) (query : string) (args : list Arg)
  : M State (sql_Result * option error) :=
  slot_call (CExecContext ctx query args) 0.

(** *** Operations on a replica *)

Definition Query (query : string) (args : list Arg)
  : M State (sql_Rows * option error) :=
  x <- Replica ;; on x (CQuery query args).

Definition QueryContext (ctx : Context) (query : string) (args : list Arg)
  : M State (sql_Rows * option error) :=
  x <- Replica ;; on x (CQueryContext ctx query args).

Definition QueryRow (query : string) (args : list Arg) : M State sql_Row :=
  x <- Replica ;; on x (CQueryRow query args).

Definition QueryRowContext (ctx : Context) (query : string)
    (args : list Arg) : M State sql_Row :=
  x <- Replica ;; on x (CQueryRowContext ctx query args).

(** *** Prepared statements *)

(** The closure of [Prepare] and of [PrepareContext], where [prep i] is
    the call [db.Pdbs[i].Prepare(query)], respectively
    [db.Pdbs[i].PrepareContext(ctx, query)]:
    [stmts[i], err = prep i; return err]. *)
Definition prepare_slot
    (prep : nat -> M State (option sql_Stmt * option error)) (i : nat)
  : M (list (option sql_Stmt) * State) (option error) :=
  r <- with_local (prep i) ;;
  store_local i r.1 ;;;
  ret r.2.

(** The common body of [Prepare] and [PrepareContext]. *)
Definition prepare_all (sched : list nat)
    (prep : nat -> M State (option sql_Stmt * option error))
  : M State (option stmt * option error) :=
  fun s =>
    let n := length (Pdbs (obj s)) in
    match scatter sched n (prepare_slot prep) (replicate n None, s) with
    | (Ok (Some err), ls) => (Ok (None, Some err), ls.2)
    | (Ok None, ls) =>
        (Ok (Some {| db := this; stmts := ls.1 |}, None), ls.2)
    | (Panic p, ls) => (Panic p, ls.2)
    end.

Definition Prepare (sched : list nat) (query : string)
  : M State (option stmt * option error) :=
  prepare_all sched (slot_call (CPrepare query)).

Definition PrepareContext (sched : list nat) (ctx : Context)
    (query : string) : M State (option stmt * option error) :=
  prepare_all sched (slot_call (CPrepareContext ctx query)).

End Nap.

(** ** Runs of operations *)

Definition void {S A} (m : M S A) : M S unit := m ;;; ret tt.

(** The operations of a logical database, with their arguments. *)
Inductive method `{SqlTypes} : Type :=
  | Do_Close
  | Do_Driver
  | Do_Begin
  | Do_BeginTx (ctx : Context) (opts : sql_TxOptions)
  | Do_Exec (query : string) (args : list Arg)
  | Do_ExecContext (ctx : Context) (query : string) (args : list Arg)
  | Do_Ping
  | Do_PingContext (ctx : Context)
  | Do_Prepare (query : string)
  | Do_PrepareContext (ctx : Context) (query : string)
  | Do_Query (query : string) (args : list Arg)
  | Do_QueryContext (ctx : Context) (query : string) (args : list Arg)
  | Do_QueryRow (query : string) (args : list Arg)
  | Do_QueryRowContext (ctx : Context) (query : string) (args : list Arg)
  | Do_SetMaxIdleConns (n : Z)
  | Do_SetMaxOpenConns (n : Z)
  | Do_SetConnMaxLifetime (d : Z)
  | Do_Slave
  | Do_Replica
  | Do_Master
  | Do_Primary
  | Do_replica (n : Z).

(** One operation, under the schedule [sched] of its fan-out if it has one;
    the value it returns is dropped. *)
Definition perform `{SqlTypes} (W : Backend) (this : addr) (sched : list nat)
    (m : method) : M State unit :=
  match m with
  | Do_Close => void (Close W sched)
  | Do_Driver => void (Driver W)
  | Do_Begin => void (Begin W)
  | Do_BeginTx ctx opts => void (BeginTx W ctx opts)
  | Do_Exec q args => void (Exec W q args)
  | Do_ExecContext ctx q args => void (ExecContext W ctx q args)
  | Do_Ping => void (Ping W sched)
  | Do_PingContext ctx => void (PingContext W sched ctx)
  | Do_Prepare q => void (Prepare W this sched q)
  | Do_PrepareContext ctx q => void (PrepareContext W this sched ctx q)
  | Do_Query q args => void (Query W q args)
  | Do_QueryContext ctx q args => void (QueryContext W ctx q args)
  | Do_QueryRow q args => void (QueryRow W q args)
  | Do_QueryRowContext ctx q args => void (QueryRowContext W ctx q args)
  | Do_SetMaxIdleConns n => SetMaxIdleConns W n
  | Do_SetMaxOpenConns n => SetMaxOpenConns W n
  | Do_SetConnMaxLifetime d => SetConnMaxLifetime W d
  | Do_Slave => void Slave
  | Do_Replica => void Replica
  | Do_Master => void Master
  | Do_Primary => void Primary
  | Do_replica n => void (replica n)
  end.

(** [k] selections one after the other, for [n] slots. *)
Fixpoint select_run `{SqlTypes} (k : nat) (n : Z) : M State (list Z) :=
  match k with
  | O => ret []
  | S k' => i <- replica n ;; sel <- select_run k' n ;; ret (i :: sel)
  end.

(** How often index [i] was selected. *)
Definition visits (i : Z) (sel : list Z) : nat :=
  length (filter (fun x => x = i) sel).

(** The operations ran one after the other with these results: [Ran fn done
    s s'] holds when, from [s], running [fn i] for each [(i, r)] of [done]
    in turn returns [r] and ends in [s']. *)
Inductive Ran {S R} (fn : nat -> M S R) : list (nat * R) -> S -> S -> Prop :=
  | Ran_nil s : Ran fn [] s s
  | Ran_cons i r done s s1 s2 :
      fn i s = (Ok r, s1) -> Ran fn done s1 s2 ->
      Ran fn ((i, r) :: done) s s2.

(** The events [evs], appended to the history [w], carry the answers of the
    backend. *)
Fixpoint answered `{SqlTypes} (W : Backend) (w evs : list event) : Prop :=
  match evs with
  | [] => True
  | ev :: evs' =>
      match ev with
      | EvOpen driverName dsn r => r = sql_Open W driverName dsn w
      | EvCall h c r => r = respond W h c w
      end /\ answered W (w ++ [ev]) evs'
  end.

(** A computation that panics in no state. *)
Definition total {S A} (m : M S A) : Prop :=
  forall s, exists a s', m s = (Ok a, s').

(** The state after the counter was advanced once. *)
Definition advanced `{SqlTypes} (s : State) : State :=
  {| obj := {| Pdbs := Pdbs (obj s);
               count := (count (obj s) + 1) mod 2 ^ 64 |};
     trace := trace s |}.

(** The indices that [k] successive selections return when the counter is
    [c] and there are [m] replicas. *)
Fixpoint picks (m c : Z) (k : nat) : list Z :=
  match k with
  | O => []
  | S k' => let c' := (c + 1) mod 2 ^ 64 in (1 + c' mod m) :: picks m c' k'
  end.

(** The state whose counter was replaced by [c]. *)
Definition with_count `{SqlTypes} (c : Z) (s : State) : State :=
  {| obj := {| Pdbs := Pdbs (obj s); count := c |}; trace := trace s |}.

(** From [s], [m] advances the receiver to [s1] without any call and then
    makes exactly one call [c], on handle [h], whose answer it returns. *)
Definition calls_once `{SqlTypes} (W : Backend) (c : call)
    (m : M State (resp c)) (h : handle) (s s1 : State) : Prop :=
  let r := respond W h c (trace s1) in
  m s = (Ok r, {| obj := obj s1; trace := trace s1 ++ [EvCall h c r] |}).

(** [m] leaves the observation [f] of the state as it was. *)
Definition keeps {S A X} (f : S -> X) (m : M S A) : Prop :=
  forall s, f (m s).2 = f s.

(** The slot list of the receiver. *)
Definition slots `{SqlTypes} (s : State) : list SQLDB := Pdbs (obj s).

(** A series of operations, each with the schedule of its fan-out. *)
Fixpoint perform_all `{SqlTypes} (W : Backend) (this : addr)
    (ops : list (list nat * method)) : M State unit :=
  match ops with
  | [] => ret tt
  | (sched, m) :: ops' =>
      (perform W this sched m ;;; perform_all W this ops')%go
  end.

(** The events of opening the segments [conns] when segment [i] was
    answered [r], for each [(i, r)] of [opened] in turn. *)
Definition open_events `{SqlTypes} (driverName : string)
    (conns : list string)
    (opened : list (nat * (option handle * option error))) : list event :=
  omap (fun ir => (fun dsn => EvOpen driverName dsn ir.2) <$> conns !! ir.1)
       opened.

(** The events of the call [c] on the handles [hs] when the handle of slot
    [i] answered [r], for each [(i, r)] of [called] in turn. *)
Definition call_events `{SqlTypes} (c : call) (hs : list handle)
    (called : list (nat * resp c)) : list event :=
  omap (fun ir => (fun h => EvCall h c ir.2) <$> hs !! ir.1) called.

(** What all-or-nothing preparation means for a method [m] that prepares
    with the call [c] on a database of live handles [hs]: [m] returns after
    exactly one call [c] on each handle, whatever the interleaving, and
    changes nothing in the receiver.  If every call succeeded it returns,
    with no error, a statement that holds for each slot [i] the statement
    that the handle of slot [i] returned; if any call failed it returns the
    aggregated error and no statement.  [get] reads the answer of [c] as a
    pair of a statement and an error. *)
Definition prepares_all_or_nothing `{SqlTypes} (W : Backend) (this : addr)
    (c : call) (get : resp c -> option sql_Stmt * option error)
    (m : M State (option stmt * option error))
    (hs : list handle) (s : State) : Prop :=
  exists (called : list (nat * resp c))
         (res : option stmt * option error) (s' : State),
    m s = (Ok res, s') /\
    obj s' = obj s /\
    called.*1 ≡ₚ seq 0 (length hs) /\
    trace s' = trace s ++ call_events c hs called /\
    answered W (trace s) (call_events c hs called) /\
    length (call_events c hs called) = length hs /\
    res.2 = aggregate (failures ((fun ir => (get ir.2).2) <$> called)) /\
    ((forall i r, (i, r) ∈ called -> (get r).2 = None) ->
     exists sts : list (option sql_Stmt),
       res = (Some {| db := this; stmts := sts |}, None) /\
       length sts = length hs /\
       (forall i r, (i, r) ∈ called -> sts !! i = Some (get r).1)) /\
    ((exists i r, (i, r) ∈ called /\ (get r).2 <> None) ->
     exists err, res = (None, Some err)).

(** The indices of [k] successive selections when the counter is [c] and
    never wraps around: the cycle that [picks] follows between two
    wrap-arounds. *)
Fixpoint cycle (m c : Z) (k : nat) : list Z :=
  match k with
  | O => []
  | S k' => (1 + (c + 1) mod m) :: cycle m (c + 1) k'
  end.

(** The operations that go through the replica selector. *)
Definition selects `{SqlTypes} (m : method) : bool :=
  match m with
  | Do_Query _ _ | Do_QueryContext _ _ _ | Do_QueryRow _ _
  | Do_QueryRowContext _ _ _ | Do_Slave | Do_Replica | Do_replica _ => true
  | _ => false
  end.

(** What fanning out the call [c] means for a method [m] on a database of
    live handles [hs]: [m] returns after exactly one call [c] on each
    handle, whatever the interleaving, changes nothing in the receiver and
    returns the aggregate of the failures of these calls, which is [nil]
    exactly when every call succeeded.  [get] reads the answer of [c] as an
    error. *)
Definition fans_out `{SqlTypes} (W : Backend) (c : call)
    (get : resp c -> option error) (m : M State (option error))
    (hs : list handle) (s : State) : Prop :=
  exists (called : list (nat * resp c)) (res : option error) (s' : State),
    m s = (Ok res, s') /\
    obj s' = obj s /\
    called.*1 ≡ₚ seq 0 (length hs) /\
    trace s' = trace s ++ call_events c hs called /\
    answered W (trace s) (call_events c hs called) /\
    length (call_events c hs called) = length hs /\
    res = aggregate (failures ((fun ir => get ir.2) <$> called)) /\
    (res = None <-> forall i r, (i, r) ∈ called -> get r = None).

(** The events of one call [c] answered [r] on each handle of [hs], in the
    order of [hs]. *)
Definition calls_in_order `{SqlTypes} (c : call) (r : resp c)
    (hs : list handle) : list event :=
  (fun h => EvCall h c r) <$> hs.

(** An event that is [sql.Open] of the driver [driverName] on a data source
    without semicolon. *)
Definition opens_plain_dsn `{SqlTypes} (driverName : string) (ev : event)
  : Prop :=
  match ev with
  | EvOpen d dsn _ => d = driverName /\ GoStrings.Count dsn semicolon = O
  | EvCall _ _ _ => False
  end.

(** The contract of [sql.Open]: without an error it returns a handle. *)
Definition opens_or_fails `{SqlTypes} (W : Backend) : Prop :=
  forall driverName dsn w,
    (sql_Open W driverName dsn w).2 = None ->
    is_Some (sql_Open W driverName dsn w).1.

(** A selection leaves the receiver as it was or advances its counter. *)
Definition selecting `{SqlTypes} {A} (m : M State A) : Prop :=
  forall s, obj (m s).2 = obj s \/ obj (m s).2 = obj (advanced s).

(** ** A concrete driver layer, for running the definitions *)

Module Demo.

Definition types : SqlTypes :=
  {| cause := string; handle := nat; sql_Stmt := nat;
     driver_Driver := unit; sql_Tx := unit; sql_TxOptions := unit;
     sql_Result := unit; sql_Rows := unit; sql_Row := unit;
     Context := unit; Arg := unit; addr := nat |}.

(** Opening the data source ["bad"] fails; any other one yields a fresh
    handle, numbered by the length of the history. *)
Definition demo_open (driverName dsn : string) (w : list (@event types))
  : option nat * option (@error types) :=
  if String.eqb dsn "bad"
  then (None, Some (@Cause types "cannot open"%string))
  else (Some (length w), None).

(** Handle [7] refuses to prepare statements; every other call succeeds. *)
Definition demo_respond (h : nat) (c : @call types)
    (w : list (@event types)) : @resp types c :=
  match c return @resp types c with
  | CClose | CPing | CPingContext _ => None
  | CDriver => tt
  | CBegin | CBeginTx _ _ => (tt, None)
  | CExec _ _ | CExecContext _ _ _ => (tt, None)
  | CPrepare _ | CPrepareContext _ _ =>
      if Nat.eqb h 7
      then (None, Some (@Cause types "cannot prepare"%string))
      else (Some (length w), None)
  | CQuery _ _ | CQueryContext _ _ _ => (tt, None)
  | CQueryRow _ _ | CQueryRowContext _ _ _ => tt
  | CSetConnMaxLifetime _ | CSetMaxIdleConns _ | CSetMaxOpenConns _ => tt
  end.

Definition backend : @Backend types :=
  {| sql_Open := demo_open; respond := demo_respond |}.

(** A database of the given slots whose counter is [c]. *)
Definition db_with (l : list (option nat)) (c : Z) : @DB types :=
  @Build_DB types l c.

(** A database of [n] live handles [0 .. n-1] whose counter is [c]. *)
Definition db_of (n : nat) (c : Z) : @DB types :=
  db_with (Some <$> seq 0 n) c.

Definition state_of (n : nat) (c : Z) : @State types :=
  {| obj := db_of n c; trace := [] |}.

(** An operation that fails at the indices of [bad] and counts, in the
    state, how many operations ran. *)
Definition flaky (bad : list nat) (i : nat)
  : M nat (option (@error types)) :=
  fun s =>
    (Ok (if decide (i ∈ bad)
         then Some (@Cause types "operation failed"%string) else None),
     Datatypes.S s).

(** An operation that fails at the indices of [bad], each with a cause
    that names its index, and counts how many operations ran. *)
Definition numbered (bad : list nat) (i : nat)
  : M nat (option (@error types)) :=
  fun s =>
    (Ok (if decide (i ∈ bad)
         then Some (@Cause types (String (ascii_of_nat (48 + i)) ""))
         else None),
     Datatypes.S s).

End Demo.

(** * Properties *)

(** ** Machine integers and strings *)

Module GoIntFacts.
Import GoInt.

Lemma two64_pos : 0 < two64.
Proof. reflexivity. Qed.

Lemma two64_eq : two64 = 2 * two63.
Proof. reflexivity. Qed.

Lemma uint64_range z : is_uint64 (uint64 z).
Proof. unfold is_uint64, uint64. apply Z.mod_pos_bound, two64_pos. Qed.

Lemma uint64_small z : 0 <= z < two64 -> uint64 z = z.
Proof. intros H. unfold uint64. now apply Z.mod_small. Qed.

Lemma int_small z : is_int z -> int z = z.
Proof.
  unfold is_int, int. intros H. rewrite Z.mod_small.
  - lia.
  - rewrite two64_eq. lia.
Qed.

Lemma int_uint64_small z : 0 <= z < two63 -> int (uint64 z) = z.
Proof.
  intros H. rewrite uint64_small by (rewrite two64_eq; lia).
  apply int_small. unfold is_int. lia.
Qed.

End GoIntFacts.

Module GoStringsFacts.
Import GoStrings.

Lemma Split_length s sep : length (Split s sep) = S (Count s sep).
Proof.
  induction s as [|c s IH]; simpl; [reflexivity|].
  destruct (Ascii.eqb c sep); simpl.
  - now rewrite IH.
  - destruct (Split s sep); simpl in *; congruence.
Qed.

Lemma Split_nonempty s sep : Split s sep <> [].
Proof.
  intros H. apply (f_equal length) in H. rewrite Split_length in H.
  discriminate.
Qed.

Lemma Join_cons p q ps sep :
  Join (p :: q :: ps) sep = (p ++ String sep (Join (q :: ps) sep))%string.
Proof. reflexivity. Qed.

Lemma Join_Split s sep : Join (Split s sep) sep = s.
Proof.
  induction s as [|c s IH]; [reflexivity|].
  cbn [Split].
  pose proof (Split_nonempty s sep) as Hne.
  destruct (Split s sep) as [|p ps]; [congruence|].
  destruct (Ascii.eqb_spec c sep) as [->|_].
  - rewrite Join_cons, IH. reflexivity.
  - destruct ps as [|q ps].
    + simpl in *. congruence.
    + rewrite Join_cons in *. rewrite <- IH. reflexivity.
Qed.

End GoStringsFacts.

(** ** Replica selection *)

Section ReplicaFacts.

Context `{T : SqlTypes}.

Lemma replica_single n s : n <= 1 -> replica n s = (Ok 0, s).
Proof.
  intros Hn. unfold replica.
  destruct (Z.leb_spec n 1) as [_|Hgt]; [reflexivity | lia].
Qed.

Lemma replica_many n s :
  2 <= n < 2 ^ 63 ->
  replica n s
  = (Ok (1 + ((count (obj s) + 1) mod 2 ^ 64) mod (n - 1)), advanced s).
Proof.
  intros [Hlo Hhi]. unfold replica.
  destruct (Z.leb_spec n 1) as [Hle|_]; [lia|].
  unfold bind, AddUint64_count, ret, advanced. cbn [obj count Pdbs trace].
  change (GoInt.uint64 (count (obj s) + 1))
    with ((count (obj s) + 1) mod 2 ^ 64).
  set (c := (count (obj s) + 1) mod 2 ^ 64).
  rewrite (GoIntFacts.int_small (n - 1)) by (unfold GoInt.is_int, GoInt.two63; lia).
  rewrite (GoIntFacts.uint64_small (n - 1))
    by (rewrite GoIntFacts.two64_eq; unfold GoInt.two63; lia).
  pose proof (Z.mod_pos_bound c (n - 1) ltac:(lia)) as Hm.
  rewrite GoIntFacts.int_uint64_small by (unfold GoInt.two63; lia).
  reflexivity.
Qed.

(** The counter that a selection stores is a [uint64]. *)
Lemma replica_count_range n s :
  2 <= n -> GoInt.is_uint64 (count (obj (snd (replica n s)))).
Proof.
  intros Hn. unfold replica.
  destruct (Z.leb_spec n 1) as [Hle|_]; [lia|].
  apply GoIntFacts.uint64_range.
Qed.

(** C1.  For a slot count [n] (a Go [int]), the replica-selection
    function returns index 0 and leaves the state alone when [n <= 1];
    when [n >= 2] it advances the shared counter by one (in [uint64]
    arithmetic) and returns 1 plus the new counter modulo [n - 1]. *)
Theorem replica_selection (n : Z) (s : State) :
  n < 2 ^ 63 ->
  (n <= 1 -> replica n s = (Ok 0, s)) /\
  (2 <= n ->
   exists c' : Z,
     c' = (count (obj s) + 1) mod 2 ^ 64 /\
     (count (obj s) + 1 < 2 ^ 64 -> 0 <= count (obj s) ->
      c' = count (obj s) + 1) /\
     replica n s
     = (Ok (1 + c' mod (n - 1)),
        {| obj := {| Pdbs := Pdbs (obj s); count := c' |};
           trace := trace s |})).
Proof.
  intros Hn. split.
  - apply replica_single.
  - intros H2. eexists. split; [reflexivity|]. split.
    + intros Hlt Hge. apply Z.mod_small. lia.
    + rewrite replica_many by lia. reflexivity.
Qed.

End ReplicaFacts.

(** C1, on a database of three slots whose counter is 4. *)
Lemma replica_selection_witness :
  (3 < 2 ^ 63)%Z /\
  @replica Demo.types 3 (Demo.state_of 3 4)
  = (Ok 2%Z, Demo.state_of 3 5).
Proof.
  split; [reflexivity|].
  destruct (@replica_selection Demo.types 3 (Demo.state_of 3 4) eq_refl)
    as [_ H].
  destruct (H ltac:(lia)) as (c' & -> & _ & ->).
  reflexivity.
Defined.

(** ** Round robin *)

Section Coverage.

Variable m : Z.
Hypothesis m_pos : 0 < m.

Lemma picks_length c k : length (picks m c k) = k.
Proof. revert c. induction k as [|k IH]; intros c; simpl; auto. Qed.

Lemma picks_range c k i : i ∈ picks m c k -> 1 <= i <= m.
Proof.
  revert c. induction k as [|k IH]; intros c; simpl.
  - intros H. inversion H.
  - intros [->|H]%elem_of_cons; [|eauto].
    pose proof (Z.mod_pos_bound ((c + 1) mod 2 ^ 64) m m_pos). lia.
Qed.

(** Advancing the counter moves the offset to residue [r] by one step of
    the cycle. *)
Lemma offset_step c r :
  0 <= r < m ->
  let e := (c - r) mod m in
  (e + 1 = m /\ (c + 1) mod m = r /\ (c + 1 - r) mod m = 0) \/
  (e + 1 < m /\ (c + 1) mod m <> r /\ (c + 1 - r) mod m = e + 1).
Proof.
  intros Hr e.
  pose proof (Z.mod_pos_bound (c - r) m m_pos) as He. fold e in He.
  pose proof (Z.div_mod (c - r) m ltac:(lia)) as Hd. fold e in Hd.
  set (q := (c - r) / m) in *.
  destruct (Z.eq_dec (e + 1) m) as [Heq|Hne].
  - left. split; [exact Heq|]. split.
    + symmetry. apply (Z.mod_unique_pos _ _ (q + 1)); lia.
    + symmetry. apply (Z.mod_unique_pos _ _ (q + 1)); lia.
  - right. split; [lia|]. split.
    + intros Hc.
      pose proof (Z.div_mod (c + 1) m ltac:(lia)) as Hd'.
      rewrite Hc in Hd'. set (q' := (c + 1) / m) in *.
      assert (m * (q' - q) = e + 1) by lia.
      assert (0 < q' - q) by nia. nia.
    + symmetry. apply (Z.mod_unique_pos _ _ q); lia.
Qed.

(** Without wrap-around, residue [r] is visited [(k + e) / m] times in
    [k] selections, where [e] is the offset of the counter to [r]. *)
Lemma visits_picks c k r :
  0 <= c -> c + Z.of_nat k < 2 ^ 64 -> 0 <= r < m ->
  Z.of_nat (visits (1 + r) (picks m c k))
  = (Z.of_nat k + (c - r) mod m) / m.
Proof.
  revert c. induction k as [|k IH]; intros c Hc Hk Hr.
  - simpl. symmetry. apply Z.div_small. apply Z.mod_pos_bound, m_pos.
  - cbn [picks]. rewrite (Z.mod_small (c + 1)) by lia.
    unfold visits in *. rewrite filter_cons.
    pose proof (Z.mod_pos_bound (c - r) m m_pos) as He.
    destruct (offset_step c r Hr) as [(Ee & Ec & Ez)|(Ee & Ec & Ez)].
    + rewrite decide_True by lia. cbn [length].
      rewrite Nat2Z.inj_succ, IH by lia.
      rewrite Ez.
      replace (Z.of_nat (S k) + (c - r) mod m)
        with (Z.of_nat k + 0 + 1 * m) by lia.
      rewrite Z.div_add by lia. lia.
    + rewrite decide_False by lia.
      rewrite IH by lia. rewrite Ez. f_equal. lia.
Qed.

Lemma visits_picks_bounds c k i :
  0 <= c -> c + Z.of_nat k < 2 ^ 64 -> 1 <= i <= m ->
  Z.of_nat k / m <= Z.of_nat (visits i (picks m c k)) <= Z.of_nat k / m + 1.
Proof.
  intros Hc Hk Hi.
  replace i with (1 + (i - 1)) by lia.
  rewrite visits_picks by lia.
  pose proof (Z.mod_pos_bound (c - (i - 1)) m m_pos) as He.
  split.
  - apply Z.div_le_mono; lia.
  - replace (Z.of_nat k / m + 1) with ((Z.of_nat k + 1 * m) / m)
      by (rewrite Z.div_add by lia; reflexivity).
    apply Z.div_le_mono; lia.
Qed.

End Coverage.

Section RoundRobin.

Context `{T : SqlTypes}.

(** A run of selections returns [picks] and only moves the counter. *)
Lemma select_run_picks n k s :
  2 <= n < 2 ^ 63 ->
  select_run k n s
  = (Ok (picks (n - 1) (count (obj s)) k),
     match k with
     | O => s
     | S _ => with_count ((count (obj s) + Z.of_nat k) mod 2 ^ 64) s
     end).
Proof.
  intros Hn. revert s. induction k as [|k IH]; intros s; [reflexivity|].
  cbn [select_run picks]. unfold bind at 1.
  rewrite replica_many by exact Hn.
  unfold bind at 1. rewrite IH. unfold ret. cbn [advanced obj count].
  f_equal. destruct k as [|k]; unfold with_count, advanced; cbn.
  - do 3 f_equal.
  - do 2 f_equal.
    rewrite Zplus_mod_idemp_l. f_equal. lia.
Qed.

(** Every counter value is reached: [c] selections on a database whose
    counter is 0 leave the counter at [c]. *)
Lemma counter_reachable n c s :
  2 <= n < 2 ^ 63 -> 0 < c < 2 ^ 64 -> count (obj s) = 0 ->
  snd (select_run (Z.to_nat c) n s) = with_count c s.
Proof.
  intros Hn Hc H0. rewrite select_run_picks by exact Hn. cbn [snd].
  destruct (Z.to_nat c) eqn:E; [lia|].
  rewrite <- E, H0, Z2Nat.id, Z.add_0_l, Z.mod_small by lia. reflexivity.
Qed.

(** C5, as the code has it.  For [n >= 2] slots, a run of sequential
    selections never returns index 0: every selected index lies in
    [1 .. n-1].  Over a run during which the counter does not wrap around
    2^64, the visit counts of any two indices of [1 .. n-1] differ by at
    most 1. *)
Theorem round_robin_coverage (n : Z) (k : nat) (s : State) :
  2 <= n < 2 ^ 63 ->
  exists sel s',
    select_run k n s = (Ok sel, s') /\
    length sel = k /\
    (forall i, i ∈ sel -> i <> 0 /\ 1 <= i <= n - 1) /\
    (0 <= count (obj s) -> count (obj s) + Z.of_nat k < 2 ^ 64 ->
     forall i j, 1 <= i <= n - 1 -> 1 <= j <= n - 1 ->
       (visits i sel <= visits j sel + 1)%nat).
Proof.
  intros Hn. rewrite select_run_picks by exact Hn.
  eexists _, _. split; [reflexivity|].
  split; [apply picks_length|]. split.
  - intros i Hi. apply picks_range in Hi; lia.
  - intros Hc Hk i j Hi Hj.
    pose proof (visits_picks_bounds (n - 1) ltac:(lia) _ k i Hc Hk Hi).
    pose proof (visits_picks_bounds (n - 1) ltac:(lia) _ k j Hc Hk Hj).
    lia.
Qed.

End RoundRobin.

(** C5, on seven selections over four slots from a fresh counter. *)
Lemma round_robin_coverage_witness :
  (2 <= 4 < 2 ^ 63)%Z /\
  exists sel s',
    @select_run Demo.types 7 4 (Demo.state_of 4 0) = (Ok sel, s') /\
    length sel = 7%nat /\
    (forall i, i ∈ sel -> i <> 0 /\ 1 <= i <= 4 - 1) /\
    (0 <= 0 -> 0 + Z.of_nat 7 < 2 ^ 64 ->
     forall i j, 1 <= i <= 4 - 1 -> 1 <= j <= 4 - 1 ->
       (visits i sel <= visits j sel + 1)%nat).
Proof.
  split; [lia|].
  apply (@round_robin_coverage Demo.types 4 7 (Demo.state_of 4 0)). lia.
Defined.

(** C5 as stated fails on a run that crosses the wrap-around of the
    counter: with four slots and the counter at 2^64 - 2, two selections
    return index 1 twice and index 2 not at all. *)
Lemma round_robin_any_run_counterexample :
  let s := Demo.state_of 4 (2 ^ 64 - 2) in
  let sel := [1; 1] in
  (2 <= 4)%Z /\ (0 <= count (obj s) < 2 ^ 64) /\
  fst (@select_run Demo.types 2 4 s) = Ok sel /\
  visits 1 sel = 2%nat /\ visits 2 sel = 0%nat /\
  ~ (forall (n : Z) (k : nat) (s : @State Demo.types) sel s',
       2 <= n < 2 ^ 63 -> 0 <= count (obj s) < 2 ^ 64 ->
       select_run k n s = (Ok sel, s') ->
       forall i j, 1 <= i <= n - 1 -> 1 <= j <= n - 1 ->
         (visits i sel <= visits j sel + 1)%nat).
Proof.
  cbv zeta.
  assert (E : @select_run Demo.types 2 4 (Demo.state_of 4 (2 ^ 64 - 2))
              = (Ok [1; 1], Demo.state_of 4 0)) by (vm_compute; reflexivity).
  split; [lia|]. split; [vm_compute; split; [discriminate | reflexivity]|].
  split; [rewrite E; reflexivity|].
  split; [reflexivity|]. split; [reflexivity|].
  intros H.
  specialize (H 4 2%nat (Demo.state_of 4 (2 ^ 64 - 2)) [1; 1] _
                ltac:(lia)
                ltac:(vm_compute; split; [discriminate | reflexivity])
                E 1 2 ltac:(lia) ltac:(lia)).
  vm_compute in H. lia.
Qed.

(** ** Frame properties of the monad *)

Section Keeps.

Context {S X : Type} (f : S -> X).

Lemma keeps_ret {A} (a : A) : keeps f (ret a).
Proof. intros s. reflexivity. Qed.

Lemma keeps_raise {A} p : keeps f (@raise S A p).
Proof. intros s. reflexivity. Qed.

Lemma keeps_bind {A B} (m : M S A) (k : A -> M S B) :
  keeps f m -> (forall a, keeps f (k a)) -> keeps f (bind m k).
Proof.
  intros Hm Hk s. unfold bind. specialize (Hm s).
  destruct (m s) as [[a|p] s1]; simpl in *.
  - rewrite Hk. exact Hm.
  - exact Hm.
Qed.

Lemma keeps_index {A} (l : list A) i : keeps f (index l i).
Proof.
  unfold index. destruct (l !! i); [apply keeps_ret | apply keeps_raise].
Qed.

Lemma keeps_index_int {A} (l : list A) i : keeps f (index_int l i).
Proof.
  unfold index_int. destruct (i <? 0)%Z;
    [apply keeps_raise | apply keeps_index].
Qed.

Lemma keeps_void {A} (m : M S A) : keeps f m -> keeps f (void m).
Proof. intros H. apply keeps_bind; [exact H | intros; apply keeps_ret]. Qed.

Lemma keeps_for_each l body :
  (forall i, keeps f (body i)) -> keeps f (for_each l body).
Proof.
  intros H. induction l as [|i l IH]; simpl.
  - apply keeps_ret.
  - apply keeps_bind; auto.
Qed.

Lemma keeps_run_all {R} (fn : nat -> M S R) order :
  (forall i, keeps f (fn i)) -> keeps f (run_all fn order).
Proof.
  intros H. induction order as [|i order IH]; simpl.
  - apply keeps_ret.
  - apply keeps_bind; [apply H|]. intros r.
    apply keeps_bind; [apply IH|]. intros rs. apply keeps_ret.
Qed.

Lemma keeps_scatter `{SqlTypes} sched n fn :
  (forall i, keeps f (fn i)) -> keeps f (scatter sched n fn).
Proof.
  intros H0. apply keeps_bind; [now apply keeps_run_all|].
  intros rs. apply keeps_ret.
Qed.

End Keeps.

Lemma keeps_with_local {L S X A} (f : S -> X) (m : M S A) :
  keeps f m -> keeps (fun ls : L * S => f ls.2) (with_local m).
Proof.
  intros H [l s]. unfold with_local. simpl. specialize (H s).
  destruct (m s) as [r s']. exact H.
Qed.

Lemma keeps_store_local {S X A} (f : S -> X) i (v : A) :
  keeps (fun ls : list A * S => f ls.2) (store_local i v).
Proof. intros [l s]. unfold store_local. simpl. now case_decide. Qed.

Create HintDb keeps.

#[local] Hint Resolve keeps_ret keeps_raise keeps_bind keeps_index
  keeps_index_int keeps_void keeps_for_each keeps_scatter keeps_with_local
  keeps_store_local : keeps.

(** ** Routing *)

Section Routing.

Context `{T : SqlTypes}.
Variable W : Backend.

Lemma slot_call_live c i h s :
  Pdbs (obj s) !! i = Some (Some h) ->
  slot_call W c i s = invoke W h c s.
Proof.
  intros H. unfold slot_call, bind, pdbs. cbv beta iota.
  unfold index. rewrite H. reflexivity.
Qed.

(** C2.  On a logical database whose slot 0 holds the live handle [h],
    [Exec], [ExecContext], [Begin] and [BeginTx] are each exactly one
    call of the same name and arguments on [h], whose answer they return:
    the receiver is unchanged and the only event recorded is that call on
    the primary. *)
Theorem primary_routing (s : State) (h : handle) (query : string)
    (args : list Arg) (ctx : Context) (opts : sql_TxOptions) :
  Pdbs (obj s) !! 0%nat = Some (Some h) ->
  calls_once W (CExec query args) (Exec W query args) h s s /\
  calls_once W (CExecContext ctx query args)
    (ExecContext W ctx query args) h s s /\
  calls_once W CBegin (Begin W) h s s /\
  calls_once W (CBeginTx ctx opts) (BeginTx W ctx opts) h s s.
Proof.
  intros H. unfold calls_once, Exec, ExecContext, Begin, BeginTx.
  rewrite !(slot_call_live _ _ _ _ H). repeat split.
Qed.

(** The selector moves nothing but the counter. *)
Lemma replica_state n s :
  exists i, replica n s = (Ok i, if (n <=? 1)%Z then s else advanced s).
Proof.
  unfold replica. destruct (n <=? 1)%Z; eexists; reflexivity.
Qed.

Lemma Replica_unfold s :
  Replica s
  = bind (replica (Z.of_nat (length (Pdbs (obj s)))))
         (index_int (Pdbs (obj s))) s.
Proof. reflexivity. Qed.

(** C3.  On a logical database of [n >= 1] live handles, [Query],
    [QueryContext], [QueryRow] and [QueryRowContext] are each exactly one
    call of the same name and arguments on the handle of the slot [i]
    that the replica-selection function returns; [i] is 0 when there is
    a single slot and lies in [1 .. n-1] when [n >= 2]. *)
Theorem replica_routing (s : State) (hs : list handle) (query : string)
    (args : list Arg) (ctx : Context) :
  Pdbs (obj s) = Some <$> hs ->
  (1 <= length hs)%nat ->
  Z.of_nat (length hs) < 2 ^ 63 ->
  exists (i : Z) (h : handle) (s1 : State),
    replica (Z.of_nat (length hs)) s = (Ok i, s1) /\
    0 <= i /\ hs !! Z.to_nat i = Some h /\
    (length hs = 1%nat -> i = 0) /\
    ((2 <= length hs)%nat -> 1 <= i <= Z.of_nat (length hs) - 1) /\
    calls_once W (CQuery query args) (Query W query args) h s s1 /\
    calls_once W (CQueryContext ctx query args)
      (QueryContext W ctx query args) h s s1 /\
    calls_once W (CQueryRow query args) (QueryRow W query args) h s s1 /\
    calls_once W (CQueryRowContext ctx query args)
      (QueryRowContext W ctx query args) h s s1.
Proof.
  intros HP Hlen Hmax.
  assert (Hsel : exists i s1,
    replica (Z.of_nat (length hs)) s = (Ok i, s1) /\
    0 <= i < Z.of_nat (length hs) /\
    (length hs = 1%nat -> i = 0) /\
    ((2 <= length hs)%nat -> 1 <= i <= Z.of_nat (length hs) - 1)).
  { destruct (decide (length hs = 1%nat)) as [E|NE].
    - exists 0, s. rewrite replica_single by lia. repeat split; lia.
    - eexists _, _. rewrite replica_many by lia.
      split; [reflexivity|].
      pose proof (Z.mod_pos_bound
        ((count (obj s) + 1) mod 2 ^ 64) (Z.of_nat (length hs) - 1)
        ltac:(lia)).
      repeat split; lia. }
  destruct Hsel as (i & s1 & Hr & Hi & H1 & H2).
  destruct (lookup_lt_is_Some_2 hs (Z.to_nat i) ltac:(lia)) as [h Hh].
  exists i, h, s1. repeat split; try assumption; try lia.
  all: unfold calls_once, Query, QueryContext, QueryRow, QueryRowContext.
  all: unfold bind at 1; rewrite Replica_unfold; unfold bind at 1.
  all: rewrite HP, length_fmap, Hr; unfold index_int.
  all: destruct (Z.ltb_spec i 0) as [?|_]; [lia|].
  all: unfold index; rewrite list_lookup_fmap, Hh; reflexivity.
Qed.

(** C8, as the code has it.  [Replica] returns the slot that the
    replica-selection function chooses, and [Slave] is the same
    function.  It makes no call on any handle and leaves the slot list
    unchanged; the selection counter is unchanged when there is at most
    one slot and is advanced by one (modulo 2^64) when there are two or
    more. *)
Theorem Replica_effect (s : State) :
  let n := Z.of_nat (length (Pdbs (obj s))) in
  exists (i : Z) (s' : State),
    replica n s = (Ok i, s') /\
    Replica s = index_int (Pdbs (obj s)) i s' /\
    snd (Replica s) = s' /\
    Slave s = Replica s /\
    trace s' = trace s /\
    Pdbs (obj s') = Pdbs (obj s) /\
    (n <= 1 -> s' = s) /\
    (2 <= n -> count (obj s') = (count (obj s) + 1) mod 2 ^ 64).
Proof.
  intros n. destruct (replica_state n s) as [i Hi].
  exists i, (if (n <=? 1)%Z then s else advanced s).
  split; [exact Hi|].
  assert (E : Replica s
              = index_int (Pdbs (obj s)) i
                  (if (n <=? 1)%Z then s else advanced s)).
  { rewrite Replica_unfold. unfold bind. fold n. now rewrite Hi. }
  split; [exact E|]. split.
  { rewrite E. apply (keeps_index_int (fun s => s)). }
  split; [reflexivity|].
  destruct (Z.leb_spec n 1); repeat split; intros; try lia; reflexivity.
Qed.

End Routing.

(** C2, on a database of three live handles. *)
Lemma primary_routing_witness :
  let s := Demo.state_of 3 0 in
  Pdbs (obj s) !! 0%nat = Some (Some 0%nat) /\
  Exec Demo.backend "UPDATE t SET x = 1" [] s
  = (Ok (tt, None),
     {| obj := obj s;
        trace := [@EvCall Demo.types 0%nat (CExec "UPDATE t SET x = 1" [])
                    (tt, None)] |}).
Proof.
  split; [reflexivity|].
  apply (@primary_routing Demo.types Demo.backend (Demo.state_of 3 0) 0%nat
           "UPDATE t SET x = 1" [] tt tt eq_refl).
Defined.

(** C3, on a database of three live handles. *)
Lemma replica_routing_witness :
  let s := Demo.state_of 3 0 in
  Pdbs (obj s) = Some <$> [0; 1; 2]%nat /\
  exists (i : Z) (h : nat) (s1 : @State Demo.types),
    replica 3 s = (Ok i, s1) /\ 1 <= i <= 2 /\
    [0; 1; 2]%nat !! Z.to_nat i = Some h /\
    @calls_once Demo.types Demo.backend (CQuery "SELECT 1" [])
      (Query Demo.backend "SELECT 1" []) h s s1.
Proof.
  split; [reflexivity|].
  destruct (@replica_routing Demo.types Demo.backend (Demo.state_of 3 0)
              [0; 1; 2]%nat "SELECT 1" [] tt eq_refl
              ltac:(simpl; lia) ltac:(reflexivity))
    as (i & h & s1 & Hr & _ & Hh & _ & Hi & Hq & _).
  exists i, h, s1. repeat split; try assumption; apply Hi; simpl; lia.
Defined.

(** C8 as stated fails: on a database of two slots, [Replica] (and so
    [Slave]) advances the selection counter from 0 to 1. *)
Lemma Replica_pure_counterexample :
  let s := Demo.state_of 2 0 in
  snd (@Replica Demo.types s) = Demo.state_of 2 1 /\
  snd (@Slave Demo.types s) = Demo.state_of 2 1 /\
  count (obj (snd (@Replica Demo.types s))) <> count (obj s) /\
  ~ (forall s : @State Demo.types, snd (Replica s) = s).
Proof.
  cbv zeta.
  assert (E : snd (@Replica Demo.types (Demo.state_of 2 0))
              = Demo.state_of 2 1) by (vm_compute; reflexivity).
  split; [exact E|]. split; [exact E|]. split.
  - rewrite E. discriminate.
  - intros H. specialize (H (Demo.state_of 2 0)). rewrite E in H.
    discriminate H.
Qed.

(** ** The slot list is never mutated *)

Section SlotsFrame.

Context `{T : SqlTypes}.
Variable W : Backend.
Variable this : addr.

Lemma keeps_invoke h c : keeps slots (invoke W h c).
Proof. intros s. reflexivity. Qed.

Lemma keeps_on x c : keeps slots (on W x c).
Proof. destruct x; [apply keeps_invoke | apply keeps_raise]. Qed.

Lemma keeps_pdbs : keeps slots pdbs.
Proof. intros s. reflexivity. Qed.

Lemma keeps_AddUint64_count d : keeps slots (AddUint64_count d).
Proof. intros s. reflexivity. Qed.

#[local] Hint Resolve keeps_invoke keeps_on keeps_pdbs
  keeps_AddUint64_count : keeps.

Lemma keeps_replica n : keeps slots (replica n).
Proof. unfold replica. destruct (n <=? 1)%Z; auto with keeps. Qed.

Lemma keeps_slot_call c i : keeps slots (slot_call W c i).
Proof. unfold slot_call. auto 6 with keeps. Qed.

Lemma keeps_Replica : keeps slots Replica.
Proof. unfold Replica. pose proof keeps_replica. auto 6 with keeps. Qed.

Lemma keeps_Primary : keeps slots Primary.
Proof. unfold Primary. auto with keeps. Qed.

#[local] Hint Resolve keeps_replica keeps_slot_call keeps_Replica
  keeps_Primary : keeps.

Lemma keeps_prepare_all sched prep :
  (forall i, keeps slots (prep i)) ->
  keeps slots (prepare_all this sched prep).
Proof.
  intros Hp s. unfold prepare_all.
  pose proof (keeps_scatter (fun ls : list (option sql_Stmt) * State =>
                               slots ls.2)
                sched (length (Pdbs (obj s))) (prepare_slot prep)) as H.
  specialize (H ltac:(intros i; unfold prepare_slot; auto 6 with keeps)
                (replicate (length (Pdbs (obj s))) None, s)).
  destruct (scatter _ _ _ _) as [[[e|]|p] ls]; exact H.
Qed.

Lemma keeps_perform sched m : keeps slots (perform W this sched m).
Proof.
  destruct m; cbn [perform];
    unfold Close, Driver, Begin, BeginTx, Exec, ExecContext, Ping,
      PingContext, Prepare, PrepareContext, Query, QueryContext, QueryRow,
      QueryRowContext, SetMaxIdleConns, SetMaxOpenConns,
      SetConnMaxLifetime, Slave, Master;
    repeat first
      [ apply keeps_void | apply keeps_slot_call | apply keeps_scatter
      | apply keeps_for_each | apply keeps_prepare_all
      | apply keeps_Replica | apply keeps_Primary | apply keeps_replica
      | apply keeps_pdbs | apply keeps_on | apply keeps_index
      | apply keeps_index_int | apply keeps_bind
      | match goal with |- forall _, _ => intro end ].
Qed.

(** C9.  Every operation of a logical database, and so every series of
    operations, leaves the physical slot list as it was: its length and
    the handle stored at each index are unchanged. *)
Theorem slots_never_mutated (ops : list (list nat * method)) (s : State) :
  let s' := snd (perform_all W this ops s) in
  Pdbs (obj s') = Pdbs (obj s) /\
  length (Pdbs (obj s')) = length (Pdbs (obj s)) /\
  (forall i : nat, Pdbs (obj s') !! i = Pdbs (obj s) !! i) /\
  (forall sched m, Pdbs (obj (snd (perform W this sched m s)))
                   = Pdbs (obj s)).
Proof.
  assert (H : keeps slots (perform_all W this ops)).
  { induction ops as [|[sched m] ops IH]; cbn [perform_all].
    - apply keeps_ret.
    - apply keeps_bind; [apply keeps_perform | intros _; exact IH]. }
  cbv zeta. specialize (H s). unfold slots in H.
  split; [exact H|]. split; [now rewrite H|]. split; [now rewrite H|].
  intros sched m. apply (keeps_perform sched m s).
Qed.

End SlotsFrame.

(** ** The scatter executor *)

Section Schedules.

Lemma interleave_Permutation fuel sched pending :
  length pending = fuel -> interleave fuel sched pending ≡ₚ pending.
Proof.
  revert sched pending.
  induction fuel as [|fuel IH]; intros sched pending Hlen.
  - destruct pending; [reflexivity | discriminate].
  - destruct pending as [|first rest]; [discriminate|].
    cbn [interleave].
    set (k := (hd 0 sched `mod` length (first :: rest))%nat).
    assert (Hk : (k < length (first :: rest))%nat)
      by (apply Nat.mod_upper_bound; discriminate).
    destruct (lookup_lt_is_Some_2 _ _ Hk) as [x Hx].
    rewrite (nth_lookup_Some _ _ _ _ Hx).
    rewrite (delete_Permutation _ _ _ Hx) at 2.
    constructor. apply IH.
    rewrite length_delete by eauto. rewrite Hlen. simpl. lia.
Qed.

(** Whatever the schedule, every index of [0, n) completes exactly
    once. *)
Lemma completion_order_Permutation sched n :
  completion_order sched n ≡ₚ seq 0 n.
Proof. apply interleave_Permutation, length_seq. Qed.

End Schedules.

Section RunAll.

Context {S R : Type} (fn : nat -> M S R).

Lemma run_all_Ran order s rs s' :
  run_all fn order s = (Ok rs, s') ->
  length rs = length order /\ Ran fn (zip order rs) s s'.
Proof.
  revert s rs s'. induction order as [|i order IH]; intros s rs s'.
  - cbn. intros [= <- <-]. split; [reflexivity | constructor].
  - cbn [run_all]. unfold bind at 1.
    destruct (fn i s) as [[r|p] s1] eqn:E; [|discriminate].
    unfold bind at 1.
    destruct (run_all fn order s1) as [[rs1|p] s2] eqn:E1; [|discriminate].
    unfold ret. intros [= <- <-].
    destruct (IH _ _ _ E1) as [Hl Hr]. split.
    + simpl. now rewrite Hl.
    + cbn [zip zip_with]. econstructor; eauto.
Qed.

Lemma run_all_total order : (forall i, total (fn i)) -> total (run_all fn order).
Proof.
  intros Ht. induction order as [|i order IH]; intros s.
  - eexists _, _. reflexivity.
  - destruct (Ht i s) as (r & s1 & E).
    destruct (IH s1) as (rs & s2 & E1).
    exists (r :: rs), s2. cbn [run_all]. unfold bind. rewrite E, E1.
    reflexivity.
Qed.

End RunAll.

Section Scatter.

Context `{T : SqlTypes}.

Lemma aggregate_cases (errs : list error) :
  (errs = [] -> aggregate errs = None) /\
  (forall e, errs = [e] -> aggregate errs = Some e) /\
  ((2 <= length errs)%nat ->
   aggregate errs = Some (Compound errs) /\
   is_compound (Compound errs) = true /\
   causes (Compound errs) = errs).
Proof.
  split; [intros ->; reflexivity|]. split; [intros e ->; reflexivity|].
  intros Hlen. destruct errs as [|e1 [|e2 errs]]; simpl in Hlen; try lia.
  repeat split.
Qed.

End Scatter.

(** One failure out of three is returned as it is. *)
Example scatter_one_failure :
  @scatter Demo.types nat [2; 0; 0]%nat 3 (Demo.flaky [1%nat]) 0%nat
  = (Ok (Some (@Cause Demo.types "operation failed"%string)), 3%nat).
Proof. reflexivity. Qed.

(** Two failures out of three are combined, in completion order. *)
Example scatter_two_failures :
  @scatter Demo.types nat [2; 0; 0]%nat 3 (Demo.flaky [0; 2]%nat) 0%nat
  = (Ok (Some (Compound [@Cause Demo.types "operation failed"%string;
                         @Cause Demo.types "operation failed"%string])),
     3%nat).
Proof. reflexivity. Qed.

(** ** Construction *)

Section Aggregate.

Context `{T : SqlTypes}.

Lemma failures_nil (rs : list (option error)) :
  failures rs = [] <-> forall r, r ∈ rs -> r = None.
Proof.
  unfold failures. induction rs as [|[e|] rs IH]; simpl.
  - split; [intros _ r Hr; inversion Hr | reflexivity].
  - split; [discriminate|]. intros H.
    specialize (H (Some e) ltac:(left)). discriminate.
  - rewrite IH. split.
    + intros H r [->|Hr]%elem_of_cons; auto.
    + intros H r Hr. apply H. now right.
Qed.

Lemma aggregate_None (errs : list error) :
  aggregate errs = None <-> errs = [].
Proof.
  destruct errs as [|e1 [|e2 errs]]; simpl; split; congruence.
Qed.

Lemma aggregate_Some (errs : list error) :
  errs <> [] -> exists err, aggregate errs = Some err.
Proof.
  destruct errs as [|e1 [|e2 errs]]; simpl; [congruence | eauto | eauto].
Qed.

End Aggregate.

(** ** The aggregation policy *)

Section ScatterPolicy.

Context `{T : SqlTypes}.

Lemma failures_filter (rs : list (option error)) :
  Some <$> failures rs = filter is_Some rs.
Proof.
  unfold failures. induction rs as [|[e|] rs IH]; [reflexivity| |].
  - rewrite filter_cons_True by eauto. cbn. now rewrite <- IH.
  - rewrite filter_cons_False by (intros [? ?]; discriminate). exact IH.
Qed.

Lemma elem_of_failures (rs : list (option error)) e :
  e ∈ failures rs <-> Some e ∈ rs.
Proof.
  unfold failures. rewrite list_elem_of_omap. split.
  - intros (x & Hx & E). cbn in E. now subst.
  - intros H. exists (Some e). auto.
Qed.

Lemma elem_of_results (ran : list (nat * option error)) e :
  Some e ∈ ran.*2 <-> exists k, (k, Some e) ∈ ran.
Proof.
  rewrite list_elem_of_fmap. split.
  - intros ([k r] & E & H). cbn in E. subst. eauto.
  - intros [k H]. exists (k, Some e). auto.
Qed.

Lemma failures_none (ran : list (nat * option error)) :
  failures ran.*2 = [] <-> forall i r, (i, r) ∈ ran -> r = None.
Proof.
  rewrite failures_nil. split.
  - intros H i r Hir. apply H, list_elem_of_fmap. exists (i, r). auto.
  - intros H r Hr. apply list_elem_of_fmap in Hr as ([i r'] & -> & Hir).
    exact (H _ _ Hir).
Qed.

Lemma failures_single (ran : list (nat * option error)) i e :
  NoDup ran.*1 ->
  (i, Some e) ∈ ran ->
  (forall j r, (j, r) ∈ ran -> j <> i -> r = None) ->
  failures ran.*2 = [e].
Proof.
  induction ran as [|[j r] ran IH]; intros Hnd Hin Hrest.
  - inversion Hin.
  - cbn in Hnd. apply NoDup_cons in Hnd as [Hj Hnd].
    apply elem_of_cons in Hin as [[= <- <-]|Hin].
    + assert (E : failures ran.*2 = []).
      { apply failures_none. intros k r Hk. apply (Hrest k r).
        - now right.
        - intros ->. apply Hj, list_elem_of_fmap. exists (i, r). auto. }
      unfold failures in *. cbn. now rewrite E.
    + assert (Hne : j <> i).
      { intros ->. apply Hj, list_elem_of_fmap. exists (i, Some e). auto. }
      rewrite (Hrest j r ltac:(left) Hne).
      apply IH; [exact Hnd | exact Hin|].
      intros k r' Hk. apply Hrest. now right.
Qed.

Lemma failures_one_more (ran : list (nat * option error)) k e :
  (k, Some e) ∈ ran -> (1 <= length (failures ran.*2))%nat.
Proof.
  intros H.
  assert (He : e ∈ failures ran.*2)
    by (apply elem_of_failures, elem_of_results; eauto).
  destruct (failures ran.*2); [inversion He | simpl; lia].
Qed.

Lemma failures_two (ran : list (nat * option error)) i j e1 e2 :
  i <> j -> (i, Some e1) ∈ ran -> (j, Some e2) ∈ ran ->
  (2 <= length (failures ran.*2))%nat.
Proof.
  intros Hne. induction ran as [|[k r] ran IH]; intros H1 H2.
  - inversion H1.
  - apply elem_of_cons in H1 as [[= <- <-]|H1];
      apply elem_of_cons in H2 as [[= E1 E2]|H2].
    + congruence.
    + pose proof (failures_one_more _ _ _ H2). unfold failures in *.
      cbn. lia.
    + subst. pose proof (failures_one_more _ _ _ H1). unfold failures in *.
      cbn. lia.
    + specialize (IH H1 H2). unfold failures in *.
      destruct r; cbn; lia.
Qed.

(** C7.  Applied to [n] indexed operations none of which panics, the
    scatter executor returns after running each index of [0, n) exactly
    once; [ran] lists the indices with the result of each, in the order of
    completion.  It reports success exactly when no operation failed.  When
    exactly one operation failed it returns that failure as-is.  When two
    or more failed it returns one compound failure, and the causes of that
    failure are the failures of all the operations that failed, each once
    and in the order of completion.  For [n = 0] it succeeds without
    changing the state. *)
Theorem scatter_aggregation {S} (sched : list nat) (n : nat)
    (fn : nat -> M S (option error)) (s : S) :
  (forall i, total (fn i)) ->
  exists (ran : list (nat * option error)) (res : option error) (s' : S),
    scatter sched n fn s = (Ok res, s') /\
    Ran fn ran s s' /\
    ran.*1 ≡ₚ seq 0 n /\
    (res = None <-> forall i r, (i, r) ∈ ran -> r = None) /\
    (forall i e,
       (i, Some e) ∈ ran ->
       (forall j r, (j, r) ∈ ran -> j <> i -> r = None) ->
       res = Some e) /\
    (forall i j e1 e2,
       i <> j -> (i, Some e1) ∈ ran -> (j, Some e2) ∈ ran ->
       exists (err : error) (es : list error),
         res = Some err /\
         is_compound err = true /\
         causes err = es /\
         Some <$> es = filter is_Some ran.*2 /\
         (forall e, e ∈ es <-> exists k, (k, Some e) ∈ ran)) /\
    (n = 0%nat -> res = None /\ s' = s).
Proof.
  intros Ht.
  destruct (run_all_total fn (completion_order sched n) Ht s)
    as (rs & s' & E).
  destruct (run_all_Ran fn _ _ _ _ E) as [Hlen Hran].
  set (ran := zip (completion_order sched n) rs) in *.
  assert (E1 : ran.*1 = completion_order sched n) by (apply fst_zip; lia).
  assert (E2 : ran.*2 = rs) by (apply snd_zip; lia).
  assert (Hnd : NoDup ran.*1).
  { rewrite E1, completion_order_Permutation. apply NoDup_seq. }
  exists ran, (aggregate (failures ran.*2)), s'.
  split; [unfold scatter, bind; rewrite E, E2; reflexivity|].
  split; [exact Hran|].
  split; [rewrite E1; apply completion_order_Permutation|].
  split; [rewrite aggregate_None; apply failures_none|].
  split.
  { intros i e Hin Hrest.
    rewrite (failures_single ran i e Hnd Hin Hrest). reflexivity. }
  split.
  { intros i j e1 e2 Hne H1 H2.
    pose proof (failures_two ran i j e1 e2 Hne H1 H2) as Hlen2.
    exists (Compound (failures ran.*2)), (failures ran.*2).
    split.
    { destruct (failures ran.*2) as [|x [|y l]]; simpl in Hlen2; try lia.
      reflexivity. }
    split; [reflexivity|]. split; [reflexivity|].
    split; [apply failures_filter|].
    intros e. rewrite elem_of_failures. apply elem_of_results. }
  intros ->. cbn in E. injection E as <- <-.
  subst ran. split; reflexivity.
Qed.

End ScatterPolicy.

(** C7, on three operations of which the first and the last fail; the last
    one completes first. *)
Lemma scatter_aggregation_witness :
  let fn := Demo.numbered [0; 2]%nat in
  (forall i, total (fn i)) /\
  @scatter Demo.types nat [2; 0; 0]%nat 3 fn 0%nat
  = (Ok (Some (Compound [@Cause Demo.types "2"%string;
                         @Cause Demo.types "0"%string])), 3%nat) /\
  exists ran res s',
    @scatter Demo.types nat [2; 0; 0]%nat 3 fn 0%nat = (Ok res, s') /\
    Ran fn ran 0%nat s' /\
    ran.*1 ≡ₚ seq 0 3 /\
    (res = None <-> forall i r, (i, r) ∈ ran -> r = None) /\
    (forall i e,
       (i, Some e) ∈ ran ->
       (forall j r, (j, r) ∈ ran -> j <> i -> r = None) ->
       res = Some e) /\
    (forall i j e1 e2,
       i <> j -> (i, Some e1) ∈ ran -> (j, Some e2) ∈ ran ->
       exists (err : @error Demo.types) (es : list (@error Demo.types)),
         res = Some err /\
         is_compound err = true /\
         causes err = es /\
         Some <$> es = filter is_Some ran.*2 /\
         (forall e, e ∈ es <-> exists k, (k, Some e) ∈ ran)) /\
    (3%nat = 0%nat -> res = None /\ s' = 0%nat).
Proof.
  assert (Ht : forall i, total (Demo.numbered [0; 2]%nat i))
    by (intros i s; eexists _, _; reflexivity).
  split; [exact Ht|]. split; [reflexivity|].
  exact (@scatter_aggregation Demo.types nat [2; 0; 0]%nat 3
           (Demo.numbered [0; 2]%nat) 0%nat Ht).
Defined.

Section OpenFacts.

Context `{T : SqlTypes}.
Variable W : Backend.
Variable driverName : string.
Variable conns : list string.

Lemma open_slot_step i dsn s :
  conns !! i = Some dsn ->
  (i < length (Pdbs (obj s)))%nat ->
  let r := sql_Open W driverName dsn (trace s) in
  open_slot W driverName conns i s
  = (Ok r.2,
     {| obj := {| Pdbs := <[i:=r.1]> (Pdbs (obj s)); count := count (obj s) |};
        trace := trace s ++ [EvOpen driverName dsn r] |}).
Proof.
  intros Hc Hi. unfold open_slot, bind, index. rewrite Hc.
  unfold ret at 1, open. cbv beta iota zeta.
  unfold store_Pdbs. cbn [obj trace].
  rewrite decide_True by exact Hi. reflexivity.
Qed.

Lemma open_events_cons i r dsn opened :
  conns !! i = Some dsn ->
  open_events driverName conns ((i, r) :: opened)
  = EvOpen driverName dsn r :: open_events driverName conns opened.
Proof. intros H. unfold open_events. cbn. now rewrite H. Qed.

(** Opening the segments of [order] one after the other fills exactly the
    slots of [order], each with the handle that [sql.Open] returned for its
    segment. *)
Lemma run_all_open order :
  forall s,
    NoDup order ->
    (forall i, i ∈ order -> (i < length conns)%nat) ->
    length (Pdbs (obj s)) = length conns ->
    exists (opened : list (nat * (option handle * option error))) s',
      run_all (open_slot W driverName conns) order s
      = (Ok (snd <$> opened.*2), s') /\
      opened.*1 = order /\
      trace s' = trace s ++ open_events driverName conns opened /\
      answered W (trace s) (open_events driverName conns opened) /\
      length (open_events driverName conns opened) = length order /\
      count (obj s') = count (obj s) /\
      length (Pdbs (obj s')) = length conns /\
      (forall i r, (i, r) ∈ opened -> Pdbs (obj s') !! i = Some r.1) /\
      (forall i, i ∉ order -> Pdbs (obj s') !! i = Pdbs (obj s) !! i).
Proof.
  induction order as [|i order IH]; intros s Hnd Hin Hlen.
  - exists [], s. cbn. rewrite app_nil_r. repeat split; auto.
    intros i r Hir. inversion Hir.
  - apply NoDup_cons in Hnd as [Hi Hnd].
    destruct (lookup_lt_is_Some_2 conns i ltac:(apply Hin; left)) as [dsn Hd].
    pose proof (open_slot_step i dsn s Hd
                  ltac:(rewrite Hlen; apply Hin; left)) as Hstep.
    cbv zeta in Hstep.
    set (r := sql_Open W driverName dsn (trace s)) in *.
    set (s1 := {| obj := _; trace := _ |}) in Hstep.
    destruct (IH s1 Hnd ltac:(intros j Hj; apply Hin; now right)
                ltac:(subst s1; cbn; now rewrite length_insert))
      as (opened & s' & Hrun & Hfst & Htr & Hans & Hlev & Hcnt & Hl & Hfill
          & Hrest).
    exists ((i, r) :: opened), s'.
    rewrite (open_events_cons _ _ _ _ Hd).
    split.
    { cbn [run_all]. unfold bind at 1. rewrite Hstep.
      unfold bind at 1. rewrite Hrun. reflexivity. }
    split; [cbn; now rewrite Hfst|].
    split.
    { rewrite Htr. subst s1. cbn [trace]. now rewrite <- app_assoc. }
    split; [split; [reflexivity | exact Hans]|].
    split; [cbn; now rewrite Hlev|].
    split; [rewrite Hcnt; reflexivity|].
    split; [exact Hl|].
    split.
    + intros j r' [[= -> ->]|Hj]%elem_of_cons.
      * rewrite (Hrest _ Hi). subst s1. cbn [obj Pdbs].
        apply list_lookup_insert_eq. rewrite Hlen. apply Hin. left.
      * now apply Hfill.
    + intros j Hj. apply not_elem_of_cons in Hj as [Hne Hj].
      rewrite (Hrest _ Hj). subst s1. cbn [obj Pdbs].
      now apply list_lookup_insert_ne.
Qed.

End OpenFacts.

Section OpenTheorems.

Context `{T : SqlTypes}.
Variable W : Backend.

Lemma completion_order_NoDup sched n : NoDup (completion_order sched n).
Proof.
  rewrite completion_order_Permutation. apply NoDup_seq.
Qed.

Lemma completion_order_lt sched n i :
  i ∈ completion_order sched n -> (i < n)%nat.
Proof.
  rewrite completion_order_Permutation, elem_of_seq. lia.
Qed.

Lemma all_succeeded (opened : list (nat * (option handle * option error))) :
  (forall i r, (i, r) ∈ opened -> r.2 = None) ->
  failures (snd <$> opened.*2) = [].
Proof.
  intros H. apply failures_nil. intros x Hx.
  apply list_elem_of_fmap in Hx as (r & -> & Hr).
  apply list_elem_of_fmap in Hr as ([i r'] & -> & Hir).
  exact (H _ _ Hir).
Qed.

Lemma some_failed (opened : list (nat * (option handle * option error))) :
  (exists i r, (i, r) ∈ opened /\ r.2 <> None) ->
  failures (snd <$> opened.*2) <> [].
Proof.
  intros (i & r & Hir & Hr) Hnil. apply Hr.
  apply (proj1 (failures_nil _) Hnil).
  apply list_elem_of_fmap. exists r. split; [reflexivity|].
  apply list_elem_of_fmap. exists (i, r). split; [reflexivity | exact Hir].
Qed.

(** What [Open] does, in one equation: every segment is opened once, in the
    order of the schedule, and the outcome is decided by the aggregated
    failure. *)
Lemma Open_run sched driverName dataSourceNames w :
  let conns := GoStrings.Split dataSourceNames semicolon in
  exists (opened : list (nat * (option handle * option error))) (d : DB),
    let evs := open_events driverName conns opened in
    Open W sched driverName dataSourceNames w
    = (Ok match aggregate (failures (snd <$> opened.*2)) with
          | Some err => (None, Some err)
          | None => (Some d, None)
          end, w ++ evs) /\
    opened.*1 ≡ₚ seq 0 (length conns) /\
    answered W w evs /\
    length evs = length conns /\
    count d = 0 /\
    length (Pdbs d) = length conns /\
    (forall i r, (i, r) ∈ opened -> Pdbs d !! i = Some r.1).
Proof.
  intros conns. unfold Open. fold conns.
  set (db0 := {| Pdbs := replicate (length conns) None; count := 0 |}).
  assert (Hl0 : length (Pdbs db0) = length conns)
    by apply length_replicate.
  rewrite Hl0.
  destruct (run_all_open W driverName conns
              (completion_order sched (length conns))
              {| obj := db0; trace := w |}
              (completion_order_NoDup _ _)
              (fun i => completion_order_lt _ _ i) Hl0)
    as (opened & s' & Hrun & Hfst & Htr & Hans & Hlev & Hcnt & Hl & Hfill & _).
  simpl in Htr, Hans, Hcnt.
  exists opened, (obj s'). cbv zeta.
  split.
  { unfold scatter, bind. rewrite Hrun. unfold ret. rewrite <- Htr.
    destruct (aggregate _); reflexivity. }
  split; [rewrite Hfst; apply completion_order_Permutation|].
  split; [exact Hans|].
  split.
  { rewrite Hlev, (completion_order_Permutation sched (length conns)).
    apply length_seq. }
  split; [exact Hcnt|]. split; [exact Hl|]. exact Hfill.
Qed.

(** C10.  Whatever the data-source string, the empty one included, a
    database that [Open] returns has exactly one slot per segment of the
    string, that is one more than the string has semicolons: empty segments
    are slots too.  So the slot list has at least one element, and
    [Primary], [Driver], [Begin] and [Exec] do not index out of bounds. *)
Theorem Open_slots_nonempty (sched : list nat)
    (driverName dataSourceNames : string) (w w' : list event)
    (d : DB) (err : option error) :
  Open W sched driverName dataSourceNames w = (Ok (Some d, err), w') ->
  length (Pdbs d) = length (GoStrings.Split dataSourceNames semicolon) /\
  length (Pdbs d) = Datatypes.S (GoStrings.Count dataSourceNames semicolon) /\
  (1 <= length (Pdbs d))%nat /\
  forall s : State, obj s = d ->
    (exists x, Pdbs d !! 0%nat = Some x /\ Primary s = (Ok x, s)) /\
    fst (Master s) <> Panic IndexOutOfRange /\
    fst (Driver W s) <> Panic IndexOutOfRange /\
    fst (Begin W s) <> Panic IndexOutOfRange /\
    forall query args,
      fst (Exec W query args s) <> Panic IndexOutOfRange.
Proof.
  intros Hopen.
  destruct (Open_run sched driverName dataSourceNames w)
    as (opened & d' & Hrun & _ & _ & _ & _ & Hl & _).
  cbv zeta in Hrun. rewrite Hopen in Hrun.
  assert (d' = d) as ->.
  { destruct (aggregate _); congruence. }
  assert (Hlen : length (Pdbs d)
                 = Datatypes.S (GoStrings.Count dataSourceNames semicolon))
    by (rewrite Hl; apply GoStringsFacts.Split_length).
  split; [exact Hl|]. split; [exact Hlen|]. split; [lia|].
  intros s <-.
  destruct (lookup_lt_is_Some_2 (Pdbs (obj s)) 0 ltac:(lia)) as [x Hx].
  assert (Hp : Primary s = (Ok x, s)).
  { unfold Primary, bind, pdbs. cbv beta iota. unfold index.
    rewrite Hx. reflexivity. }
  split; [eauto|].
  split; [unfold Master; rewrite Hp; discriminate|].
  assert (Hcall : forall c, fst (slot_call W c 0 s) <> Panic IndexOutOfRange).
  { intros c. unfold slot_call, bind, pdbs. cbv beta iota. unfold index.
    rewrite Hx. unfold ret. destruct x; cbn; discriminate. }
  split; [exact (Hcall CDriver)|]. split; [exact (Hcall CBegin)|].
  intros query args. exact (Hcall (CExec query args)).
Qed.

End OpenTheorems.

(** C10, on the data source [";"], whose two segments are empty. *)
Lemma Open_slots_nonempty_witness :
  let d := Demo.db_with [Some 0%nat; Some 1%nat] 0 in
  let w' := [@EvOpen Demo.types "mysql" "" (Some 0%nat, None);
             @EvOpen Demo.types "mysql" "" (Some 1%nat, None)] in
  Open Demo.backend [] "mysql" ";" [] = (Ok (Some d, None), w') /\
  length (Pdbs d) = 2%nat /\
  forall s : @State Demo.types, obj s = d ->
    fst (Exec Demo.backend "DELETE FROM t" [] s) <> Panic IndexOutOfRange.
Proof.
  cbv zeta. split; [reflexivity|].
  destruct (@Open_slots_nonempty Demo.types Demo.backend [] "mysql" ";" [] _
              _ _ eq_refl) as (_ & Hlen & _ & Hs).
  split; [exact Hlen|].
  intros s Hd. apply (Hs s Hd).
Defined.

(** The empty data source has one segment, hence one slot. *)
Example Open_empty_string :
  Open Demo.backend [] "mysql" "" []
  = (Ok (Some (Demo.db_with [Some 0%nat] 0), None),
     [@EvOpen Demo.types "mysql" "" (Some 0%nat, None)]).
Proof. reflexivity. Qed.

(** Three targets of which the second fails to open: no database is
    returned, and the first and the third were opened all the same. *)
Example Open_second_fails :
  Open Demo.backend [] "mysql" "a;bad;c" []
  = (Ok (None, Some (@Cause Demo.types "cannot open")),
     [@EvOpen Demo.types "mysql" "a" (Some 0%nat, None);
      @EvOpen Demo.types "mysql" "bad"
        (None, Some (@Cause Demo.types "cannot open"));
      @EvOpen Demo.types "mysql" "c" (Some 2%nat, None)]).
Proof. reflexivity. Qed.

(** ** Prepared statements *)

Section PrepareFacts.

Context `{T : SqlTypes}.
Variable W : Backend.
Variable this : addr.
Variable c : call.
Variable get : resp c -> option sql_Stmt * option error.
Variable prep : nat -> M State (option sql_Stmt * option error).
Variable hs : list handle.

(** [prep i] is the call [c] on the handle of slot [i]. *)
Hypothesis prep_live : forall i h s,
  Pdbs (obj s) !! i = Some (Some h) ->
  prep i s
  = (Ok (get (respond W h c (trace s))),
     {| obj := obj s;
        trace := trace s ++ [EvCall h c (respond W h c (trace s))] |}).

Lemma prepare_slot_step i h l s :
  hs !! i = Some h ->
  Pdbs (obj s) = Some <$> hs ->
  (i < length l)%nat ->
  let r := respond W h c (trace s) in
  prepare_slot prep i (l, s)
  = (Ok (get r).2,
     (<[i:=(get r).1]> l,
      {| obj := obj s; trace := trace s ++ [EvCall h c r] |})).
Proof.
  intros Hh HP Hi r. unfold prepare_slot, bind, with_local. cbn [fst snd].
  rewrite (prep_live i h s) by (rewrite HP, list_lookup_fmap, Hh; reflexivity).
  fold r. unfold store_local. cbn [fst snd].
  rewrite decide_True by exact Hi. reflexivity.
Qed.

Lemma call_events_cons i r h called :
  hs !! i = Some h ->
  call_events c hs ((i, r) :: called) = EvCall h c r :: call_events c hs called.
Proof. intros H. unfold call_events. cbn. now rewrite H. Qed.

(** Preparing on the slots of [order] one after the other fills exactly the
    entries of [order], each with the statement that the handle of its slot
    returned. *)
Lemma run_all_prepare order :
  forall l s,
    NoDup order ->
    (forall i, i ∈ order -> (i < length hs)%nat) ->
    length l = length hs ->
    Pdbs (obj s) = Some <$> hs ->
    exists (called : list (nat * resp c)) l' s',
      run_all (prepare_slot prep) order (l, s)
      = (Ok ((fun ir => (get ir.2).2) <$> called), (l', s')) /\
      called.*1 = order /\
      obj s' = obj s /\
      trace s' = trace s ++ call_events c hs called /\
      answered W (trace s) (call_events c hs called) /\
      length (call_events c hs called) = length order /\
      length l' = length hs /\
      (forall i r, (i, r) ∈ called -> l' !! i = Some (get r).1) /\
      (forall i, i ∉ order -> l' !! i = l !! i).
Proof.
  induction order as [|i order IH]; intros l s Hnd Hin Hlen HP.
  - exists [], l, s. cbn. rewrite app_nil_r. repeat split; auto.
    intros i r Hir. inversion Hir.
  - apply NoDup_cons in Hnd as [Hi Hnd].
    destruct (lookup_lt_is_Some_2 hs i ltac:(apply Hin; left)) as [h Hh].
    pose proof (prepare_slot_step i h l s Hh HP
                  ltac:(rewrite Hlen; apply Hin; left)) as Hstep.
    cbv zeta in Hstep.
    set (r := respond W h c (trace s)) in *.
    set (s1 := {| obj := obj s; trace := _ |}) in Hstep.
    destruct (IH (<[i:=(get r).1]> l) s1 Hnd
                ltac:(intros j Hj; apply Hin; now right)
                ltac:(now rewrite length_insert) HP)
      as (called & l' & s' & Hrun & Hfst & Hobj & Htr & Hans & Hlev & Hl
          & Hfill & Hrest).
    exists ((i, r) :: called), l', s'.
    rewrite (call_events_cons _ _ _ _ Hh).
    split.
    { cbn [run_all]. unfold bind at 1. rewrite Hstep.
      unfold bind at 1. rewrite Hrun. reflexivity. }
    split; [cbn; now rewrite Hfst|].
    split; [exact Hobj|].
    split.
    { rewrite Htr. subst s1. cbn [trace]. now rewrite <- app_assoc. }
    split; [split; [reflexivity | exact Hans]|].
    split; [cbn; now rewrite Hlev|].
    split; [exact Hl|].
    split.
    + intros j r' Hj. apply elem_of_cons in Hj as [Heq|Hj].
      * injection Heq as -> ->. rewrite (Hrest _ Hi).
        apply list_lookup_insert_eq. rewrite Hlen. apply Hin. left.
      * now apply Hfill.
    + intros j Hj. apply not_elem_of_cons in Hj as [Hne Hj].
      rewrite (Hrest _ Hj). now apply list_lookup_insert_ne.
Qed.

Lemma prepare_all_spec sched s :
  Pdbs (obj s) = Some <$> hs ->
  prepares_all_or_nothing W this c get (prepare_all this sched prep) hs s.
Proof.
  intros HP. unfold prepares_all_or_nothing, prepare_all.
  assert (Hn : length (Pdbs (obj s)) = length hs)
    by (rewrite HP; apply length_fmap).
  rewrite Hn.
  destruct (run_all_prepare (completion_order sched (length hs))
              (replicate (length hs) None) s
              (completion_order_NoDup _ _)
              (fun i => completion_order_lt _ _ i)
              (length_replicate _ _) HP)
    as (called & l' & s' & Hrun & Hfst & Hobj & Htr & Hans & Hlev & Hl
        & Hfill & _).
  set (rs := (fun ir : nat * resp c => (get ir.2).2) <$> called) in *.
  exists called,
    (match aggregate (failures rs) with
     | Some err => (None, Some err)
     | None => (Some {| db := this; stmts := l' |}, None)
     end), s'.
  split.
  { unfold scatter, bind. rewrite Hrun. unfold ret. cbn [fst snd].
    destruct (aggregate _); reflexivity. }
  split; [exact Hobj|].
  split; [rewrite Hfst; apply completion_order_Permutation|].
  split; [exact Htr|]. split; [exact Hans|].
  split.
  { rewrite Hlev, (completion_order_Permutation sched (length hs)).
    apply length_seq. }
  split; [destruct (aggregate _); reflexivity|].
  split.
  - intros Hall.
    assert (failures rs = []) as ->.
    { apply failures_nil. intros x Hx. subst rs.
      apply list_elem_of_fmap in Hx as ([i r] & -> & Hir).
      exact (Hall _ _ Hir). }
    exists l'. auto.
  - intros (i & r & Hir & Hr).
    assert (Hne : failures rs <> []).
    { intros Hnil. apply Hr. apply (proj1 (failures_nil _) Hnil).
      subst rs. apply list_elem_of_fmap. exists (i, r). auto. }
    destruct (aggregate_Some _ Hne) as [e ->]. eauto.
Qed.

End PrepareFacts.

Section PrepareTheorems.

Context `{T : SqlTypes}.
Variable W : Backend.
Variable this : addr.

(** C6.  On a database of live handles, [Prepare] and [PrepareContext]
    prepare the query once on every slot.  If preparation fails on any
    slot they return an error and no statement; otherwise the statement
    they return holds exactly one prepared statement per slot, in the order
    of the slot list: entry [i] is the statement that the handle of slot
    [i] returned. *)
Theorem Prepare_all_or_nothing (sched : list nat) (s : State)
    (hs : list handle) (query : string) (ctx : Context) :
  Pdbs (obj s) = Some <$> hs ->
  prepares_all_or_nothing W this (CPrepare query) id
    (Prepare W this sched query) hs s /\
  prepares_all_or_nothing W this (CPrepareContext ctx query) id
    (PrepareContext W this sched ctx query) hs s.
Proof.
  intros HP. split.
  - apply (prepare_all_spec W this (CPrepare query) id); [|exact HP].
    intros i h s0 H. rewrite (slot_call_live W _ _ _ _ H). reflexivity.
  - apply (prepare_all_spec W this (CPrepareContext ctx query) id);
      [|exact HP].
    intros i h s0 H. rewrite (slot_call_live W _ _ _ _ H). reflexivity.
Qed.

End PrepareTheorems.

(** C6, on a database of three live handles. *)
Lemma Prepare_all_or_nothing_witness :
  let s := Demo.state_of 3 0 in
  Pdbs (obj s) = Some <$> [0; 1; 2]%nat /\
  @prepares_all_or_nothing Demo.types Demo.backend 0%nat
    (CPrepare "SELECT 1") id
    (Prepare Demo.backend 0%nat [1; 1]%nat "SELECT 1") [0; 1; 2]%nat s.
Proof.
  split; [reflexivity|].
  apply (@Prepare_all_or_nothing Demo.types Demo.backend 0%nat [1; 1]%nat
           (Demo.state_of 3 0) [0; 1; 2]%nat "SELECT 1" tt eq_refl).
Defined.

(** Three slots that all prepare: one statement per slot, in slot order,
    although slot 1 was prepared first and slot 0 last. *)
Example Prepare_three_slots :
  Prepare Demo.backend 0%nat [1; 1]%nat "SELECT 1" (Demo.state_of 3 0)
  = (Ok (Some {| db := 0%nat : @addr Demo.types;
                 stmts := [Some 2%nat; Some 0%nat; Some 1%nat] |}, None),
     {| obj := Demo.db_of 3 0;
        trace := [@EvCall Demo.types 1%nat (CPrepare "SELECT 1")
                    (Some 0%nat, None);
                  @EvCall Demo.types 2%nat (CPrepare "SELECT 1")
                    (Some 1%nat, None);
                  @EvCall Demo.types 0%nat (CPrepare "SELECT 1")
                    (Some 2%nat, None)] |}).
Proof. reflexivity. Qed.

(** A slot that refuses to prepare: an error and no statement. *)
Example Prepare_one_fails :
  fst (Prepare Demo.backend 0%nat [] "SELECT 1"
         {| obj := Demo.db_with [Some 0; Some 7; Some 2]%nat 0;
            trace := [] |})
  = Ok (None, Some (@Cause Demo.types "cannot prepare")).
Proof. reflexivity. Qed.

(** * Further properties of the code *)

(** ** The order of the round robin *)

Section Successor.

Context `{T : SqlTypes}.

(** X1.  Away from the wrap-around of the counter, two successive
    selections over [n >= 2] slots follow the cycle 1, 2, ..., n-1, 1, ...:
    the second index is the first plus one, or 1 after [n - 1].  With at
    least two replicas the two selections differ. *)
Theorem round_robin_successor (n : Z) (s : State) :
  2 <= n < 2 ^ 63 ->
  0 <= count (obj s) ->
  count (obj s) + 2 < 2 ^ 64 ->
  exists (i j : Z) (s1 s2 : State),
    replica n s = (Ok i, s1) /\
    replica n s1 = (Ok j, s2) /\
    j = (if (i =? n - 1)%Z then 1 else i + 1) /\
    (3 <= n -> j <> i).
Proof.
  intros Hn Hc Hw.
  eexists _, _, _, _. split; [apply replica_many; exact Hn|].
  split; [apply replica_many; exact Hn|].
  cbn [advanced obj count].
  rewrite (Z.mod_small (count (obj s) + 1)) by lia.
  rewrite (Z.mod_small (count (obj s) + 1 + 1)) by lia.
  set (c := count (obj s)) in *.
  pose proof (Z.mod_pos_bound (c + 1) (n - 1) ltac:(lia)) as Hb.
  destruct (offset_step (n - 1) ltac:(lia) (c + 1) 0 ltac:(lia))
    as [(He & _ & Hz)|(He & _ & Hz)];
    replace (c + 1 + 1 - 0) with (c + 1 + 1) in Hz by lia;
    replace (c + 1 - 0) with (c + 1) in * by lia; rewrite Hz;
    destruct (Z.eqb_spec (1 + (c + 1) mod (n - 1)) (n - 1)); split; lia.
Qed.

End Successor.

(** X1, on four slots with the counter at 2: index 1 follows index 3. *)
Lemma round_robin_successor_witness :
  (2 <= 4 < 2 ^ 63) /\
  exists i j s1 s2,
    @replica Demo.types 4 (Demo.state_of 4 2) = (Ok i, s1) /\
    replica 4 s1 = (Ok j, s2) /\
    j = (if (i =? 4 - 1)%Z then 1 else i + 1) /\
    (3 <= 4 -> j <> i).
Proof.
  split; [lia|].
  apply (@round_robin_successor Demo.types 4 (Demo.state_of 4 2));
    [lia | discriminate | reflexivity].
Defined.

(** ** Replica counts that divide 2^64 *)

Section Cycle.

Variable m : Z.
Hypothesis m_pos : 0 < m.

Lemma cycle_congr c1 c2 k :
  c1 mod m = c2 mod m -> cycle m c1 k = cycle m c2 k.
Proof.
  revert c1 c2. induction k as [|k IH]; intros c1 c2 E; [reflexivity|].
  assert (E1 : (c1 + 1) mod m = (c2 + 1) mod m).
  { rewrite (Z.add_mod c1), (Z.add_mod c2), E by lia. reflexivity. }
  cbn [cycle]. rewrite E1. f_equal. apply IH, E1.
Qed.

(** When the number of replicas divides 2^64, the wrap-around of the
    counter falls on a boundary of the cycle. *)
Lemma picks_cycle c k : (m | 2 ^ 64) -> picks m c k = cycle m c k.
Proof.
  intros Hd. revert c. induction k as [|k IH]; intros c; [reflexivity|].
  assert (E : ((c + 1) mod 2 ^ 64) mod m = (c + 1) mod m).
  { apply Z.mod_mod_divide. exact Hd. }
  cbn [picks cycle]. rewrite E, IH. f_equal.
  apply cycle_congr. rewrite E. reflexivity.
Qed.

Lemma visits_cycle c k r :
  0 <= r < m ->
  Z.of_nat (visits (1 + r) (cycle m c k))
  = (Z.of_nat k + (c - r) mod m) / m.
Proof.
  revert c. induction k as [|k IH]; intros c Hr.
  - simpl. symmetry. apply Z.div_small. apply Z.mod_pos_bound, m_pos.
  - cbn [cycle]. unfold visits in *. rewrite filter_cons.
    pose proof (Z.mod_pos_bound (c - r) m m_pos) as He.
    destruct (offset_step m m_pos c r Hr) as [(Ee & Ec & Ez)|(Ee & Ec & Ez)].
    + rewrite decide_True by lia. cbn [length].
      rewrite Nat2Z.inj_succ, IH by lia. rewrite Ez.
      replace (Z.of_nat (S k) + (c - r) mod m)
        with (Z.of_nat k + 0 + 1 * m) by lia.
      rewrite Z.div_add by lia. lia.
    + rewrite decide_False by lia.
      rewrite IH by lia. rewrite Ez. f_equal. lia.
Qed.

Lemma visits_cycle_bounds c k i :
  1 <= i <= m ->
  Z.of_nat k / m <= Z.of_nat (visits i (cycle m c k)) <= Z.of_nat k / m + 1.
Proof.
  intros Hi. replace i with (1 + (i - 1)) by lia.
  rewrite visits_cycle by lia.
  pose proof (Z.mod_pos_bound (c - (i - 1)) m m_pos) as He.
  split.
  - apply Z.div_le_mono; lia.
  - replace (Z.of_nat k / m + 1) with ((Z.of_nat k + 1 * m) / m)
      by (rewrite Z.div_add by lia; reflexivity).
    apply Z.div_le_mono; lia.
Qed.

End Cycle.

Section Divisor.

Context `{T : SqlTypes}.

(** X2.  When the number of replicas [n - 1] divides 2^64 (1, 2, 4, 8, ...
    replicas), the round robin is uniform over every run, the runs that
    cross the wrap-around of the counter included: the visit counts of any
    two indices of [1 .. n-1] differ by at most 1, whatever the counter. *)
Theorem round_robin_divisor (n : Z) (k : nat) (s : State) :
  2 <= n < 2 ^ 63 ->
  (n - 1 | 2 ^ 64) ->
  exists sel s',
    select_run k n s = (Ok sel, s') /\
    forall i j, 1 <= i <= n - 1 -> 1 <= j <= n - 1 ->
      (visits i sel <= visits j sel + 1)%nat.
Proof.
  intros Hn Hd. rewrite select_run_picks by exact Hn.
  eexists _, _. split; [reflexivity|].
  intros i j Hi Hj. rewrite picks_cycle by (lia || exact Hd).
  pose proof (visits_cycle_bounds (n - 1) ltac:(lia) (count (obj s)) k i Hi).
  pose proof (visits_cycle_bounds (n - 1) ltac:(lia) (count (obj s)) k j Hj).
  lia.
Qed.

(** X3.  The counter counts the selections: [k] selections over [n >= 2]
    slots leave the counter at its old value plus [k], modulo 2^64, and
    change nothing else; over [n <= 1] slots they all return index 0 and
    the counter does not move. *)
Theorem select_run_counter (n : Z) (k : nat) (s : State) :
  0 <= count (obj s) < 2 ^ 64 ->
  (n <= 1 -> select_run k n s = (Ok (replicate k 0), s)) /\
  (2 <= n < 2 ^ 63 ->
   snd (select_run k n s)
   = with_count ((count (obj s) + Z.of_nat k) mod 2 ^ 64) s).
Proof.
  intros Hc. split.
  - intros Hn. induction k as [|k IH]; [reflexivity|].
    cbn [select_run]. unfold bind at 1. rewrite replica_single by exact Hn.
    unfold bind at 1. rewrite IH. reflexivity.
  - intros Hn. rewrite select_run_picks by exact Hn. cbn [snd].
    destruct k as [|k]; [|reflexivity].
    rewrite Z.add_0_r, Z.mod_small by exact Hc.
    destruct s as [[P c] w]. reflexivity.
Qed.

End Divisor.

(** X2, on four replicas and a run of seven selections that crosses the
    wrap-around of the counter. *)
Lemma round_robin_divisor_witness :
  (2 <= 5 < 2 ^ 63) /\ (5 - 1 | 2 ^ 64) /\
  exists sel s',
    @select_run Demo.types 7 5 (Demo.state_of 5 (2 ^ 64 - 2)) = (Ok sel, s') /\
    forall i j, 1 <= i <= 5 - 1 -> 1 <= j <= 5 - 1 ->
      (visits i sel <= visits j sel + 1)%nat.
Proof.
  assert (Hd : (5 - 1 | 2 ^ 64)) by (exists (2 ^ 62); reflexivity).
  split; [lia|]. split; [exact Hd|].
  apply (@round_robin_divisor Demo.types 5 7
           (Demo.state_of 5 (2 ^ 64 - 2)) ltac:(lia) Hd).
Defined.

(** X3, on three slots with the counter at its last value. *)
Lemma select_run_counter_witness :
  (0 <= 2 ^ 64 - 1 < 2 ^ 64) /\
  snd (@select_run Demo.types 3 3 (Demo.state_of 3 (2 ^ 64 - 1)))
  = Demo.state_of 3 2.
Proof.
  split; [lia|].
  destruct (@select_run_counter Demo.types 3 3
              (Demo.state_of 3 (2 ^ 64 - 1)) ltac:(cbn; lia)) as [_ H].
  rewrite H by lia. reflexivity.
Defined.

(** ** Pool tuning *)

Section Sequential.

Context `{T : SqlTypes}.
Variable body : nat -> M State unit.
Variable ev : handle -> event.
Variable hs : list handle.

(** [body i] is one recorded call on the handle of slot [i]. *)
Hypothesis body_live : forall i h s,
  Pdbs (obj s) !! i = Some (Some h) ->
  body i s = (Ok tt, {| obj := obj s; trace := trace s ++ [ev h] |}).

Lemma for_each_seq len :
  forall j s,
    Pdbs (obj s) = Some <$> hs ->
    (j + len <= length hs)%nat ->
    for_each (seq j len) body s
    = (Ok tt,
       {| obj := obj s; trace := trace s ++ (ev <$> take len (drop j hs)) |}).
Proof.
  induction len as [|len IH]; intros j s HP Hlen.
  - cbn. rewrite app_nil_r. destruct s; reflexivity.
  - destruct (lookup_lt_is_Some_2 hs j ltac:(lia)) as [h Hh].
    cbn [seq for_each]. unfold bind.
    rewrite (body_live j h s)
      by (rewrite HP, list_lookup_fmap, Hh; reflexivity).
    rewrite IH by (exact HP || lia).
    cbn [obj trace]. rewrite (drop_S _ _ _ Hh). cbn [take fmap list_fmap].
    rewrite <- app_assoc. reflexivity.
Qed.

Lemma for_each_all s :
  Pdbs (obj s) = Some <$> hs ->
  for_each (seq 0 (length hs)) body s
  = (Ok tt, {| obj := obj s; trace := trace s ++ (ev <$> hs) |}).
Proof.
  intros HP. rewrite for_each_seq by (exact HP || lia).
  rewrite drop_0, firstn_all. reflexivity.
Qed.

End Sequential.

Section PoolTuning.

Context `{T : SqlTypes}.
Variable W : Backend.

Lemma setter_live (c : call) (u : resp c) :
  (forall r : resp c, r = u) ->
  forall i h s,
    Pdbs (obj s) !! i = Some (Some h) ->
    slot_call W c i s
    = (Ok u, {| obj := obj s; trace := trace s ++ [EvCall h c u] |}).
Proof.
  intros Hu i h s H. rewrite (slot_call_live W _ _ _ _ H).
  unfold invoke. rewrite (Hu (respond W h c (trace s))). reflexivity.
Qed.

(** X4.  On a database of live handles, [SetMaxIdleConns],
    [SetMaxOpenConns] and [SetConnMaxLifetime] call the setter of the same
    name, with the same argument, once on every handle, one after the other
    in the order of the slot list and the primary first; they return and
    change nothing in the receiver. *)
Theorem pool_tuning_in_order (s : State) (hs : list handle) (n d : Z) :
  Pdbs (obj s) = Some <$> hs ->
  SetMaxIdleConns W n s
  = (Ok tt, {| obj := obj s;
               trace := trace s ++ calls_in_order (CSetMaxIdleConns n) tt hs |})
  /\
  SetMaxOpenConns W n s
  = (Ok tt, {| obj := obj s;
               trace := trace s ++ calls_in_order (CSetMaxOpenConns n) tt hs |})
  /\
  SetConnMaxLifetime W d s
  = (Ok tt, {| obj := obj s;
               trace := trace s
                        ++ calls_in_order (CSetConnMaxLifetime d) tt hs |}).
Proof.
  intros HP.
  assert (Hn : length (Pdbs (obj s)) = length hs)
    by (rewrite HP; apply length_fmap).
  unfold SetMaxIdleConns, SetMaxOpenConns, SetConnMaxLifetime, bind, pdbs,
    calls_in_order.
  rewrite Hn.
  split; [|split].
  - apply (for_each_all (slot_call W (CSetMaxIdleConns n))
             (fun h => EvCall h (CSetMaxIdleConns n) tt) hs); [|exact HP].
    apply (setter_live (CSetMaxIdleConns n) tt). intros []. reflexivity.
  - apply (for_each_all (slot_call W (CSetMaxOpenConns n))
             (fun h => EvCall h (CSetMaxOpenConns n) tt) hs); [|exact HP].
    apply (setter_live (CSetMaxOpenConns n) tt). intros []. reflexivity.
  - apply (for_each_all (slot_call W (CSetConnMaxLifetime d))
             (fun h => EvCall h (CSetConnMaxLifetime d) tt) hs); [|exact HP].
    apply (setter_live (CSetConnMaxLifetime d) tt). intros []. reflexivity.
Qed.

End PoolTuning.

(** X4, on a database of three live handles. *)
Lemma pool_tuning_in_order_witness :
  let s := Demo.state_of 3 0 in
  Pdbs (obj s) = Some <$> [0; 1; 2]%nat /\
  SetMaxIdleConns Demo.backend 5 s
  = (Ok tt,
     {| obj := obj s;
        trace := [@EvCall Demo.types 0%nat (CSetMaxIdleConns 5) tt;
                  @EvCall Demo.types 1%nat (CSetMaxIdleConns 5) tt;
                  @EvCall Demo.types 2%nat (CSetMaxIdleConns 5) tt] |}).
Proof.
  split; [reflexivity|].
  apply (@pool_tuning_in_order Demo.types Demo.backend (Demo.state_of 3 0)
           [0; 1; 2]%nat 5 0 eq_refl).
Defined.

(** ** Accessors and the empty database *)

Section Accessors.

Context `{T : SqlTypes}.
Variable W : Backend.

(** X5.  On a logical database whose slot 0 holds the live handle [h],
    [Driver] is exactly one call of [Driver] on [h], whose answer it
    returns, and [Primary] and [Master] return [h] without any call and
    without any change of the state: unlike [Replica], they leave the
    selection counter alone. *)
Theorem primary_accessors (s : State) (h : handle) :
  Pdbs (obj s) !! 0%nat = Some (Some h) ->
  calls_once W CDriver (Driver W) h s s /\
  Primary s = (Ok (Some h), s) /\
  Master s = (Ok (Some h), s).
Proof.
  intros H. split.
  - unfold calls_once, Driver. rewrite (slot_call_live W _ _ _ _ H).
    reflexivity.
  - unfold Master, Primary, bind, pdbs. cbv beta iota. unfold index.
    rewrite H. split; reflexivity.
Qed.

(** X6.  On a logical database without any slot (the zero value of [DB]),
    every operation on the primary or on a replica panics with an index
    out of range, before any call and without moving the counter; the
    replica selector itself returns 0; the pool-tuning setters return
    without any call. *)
Theorem empty_database (s : State) (query : string) (args : list Arg)
    (ctx : Context) (opts : sql_TxOptions) (n : Z) :
  Pdbs (obj s) = [] ->
  replica (Z.of_nat (length (Pdbs (obj s)))) s = (Ok 0, s) /\
  (Primary s = (Panic IndexOutOfRange, s) /\
   Master s = (Panic IndexOutOfRange, s) /\
   Replica s = (Panic IndexOutOfRange, s) /\
   Slave s = (Panic IndexOutOfRange, s)) /\
  (Driver W s = (Panic IndexOutOfRange, s) /\
   Begin W s = (Panic IndexOutOfRange, s) /\
   BeginTx W ctx opts s = (Panic IndexOutOfRange, s) /\
   Exec W query args s = (Panic IndexOutOfRange, s) /\
   ExecContext W ctx query args s = (Panic IndexOutOfRange, s)) /\
  (Query W query args s = (Panic IndexOutOfRange, s) /\
   QueryContext W ctx query args s = (Panic IndexOutOfRange, s) /\
   QueryRow W query args s = (Panic IndexOutOfRange, s) /\
   QueryRowContext W ctx query args s = (Panic IndexOutOfRange, s)) /\
  (SetMaxIdleConns W n s = (Ok tt, s) /\
   SetMaxOpenConns W n s = (Ok tt, s) /\
   SetConnMaxLifetime W n s = (Ok tt, s)).
Proof.
  intros H.
  unfold Master, Slave, Driver, Begin, BeginTx, Exec, ExecContext, Query,
    QueryContext, QueryRow, QueryRowContext, SetMaxIdleConns,
    SetMaxOpenConns, SetConnMaxLifetime, slot_call, Replica, Primary, bind,
    pdbs.
  cbv beta iota. rewrite H. repeat split.
Qed.

End Accessors.

(** X5, on a database of two live handles. *)
Lemma primary_accessors_witness :
  let s := Demo.state_of 2 9 in
  Pdbs (obj s) !! 0%nat = Some (Some 0%nat) /\
  @Primary Demo.types s = (Ok (Some 0%nat), s).
Proof.
  split; [reflexivity|].
  apply (@primary_accessors Demo.types Demo.backend (Demo.state_of 2 9)
           0%nat eq_refl).
Defined.

(** X6, on the zero value of [DB]. *)
Lemma empty_database_witness :
  let s := Demo.state_of 0 0 in
  Pdbs (obj s) = [] /\
  Exec Demo.backend "DELETE FROM t" [] s = (Panic IndexOutOfRange, s) /\
  Query Demo.backend "SELECT 1" [] s = (Panic IndexOutOfRange, s).
Proof.
  split; [reflexivity|].
  destruct (@empty_database Demo.types Demo.backend (Demo.state_of 0 0)
              "DELETE FROM t" [] tt tt 0 eq_refl)
    as (_ & _ & (_ & _ & _ & He & _) & Hq & _).
  split; [exact He|].
  destruct (@empty_database Demo.types Demo.backend (Demo.state_of 0 0)
              "SELECT 1" [] tt tt 0 eq_refl)
    as (_ & _ & _ & (Hq' & _) & _).
  exact Hq'.
Defined.

(** ** What moves the counter *)

Section ReceiverFrame.

Context `{T : SqlTypes}.
Variable W : Backend.
Variable this : addr.

Lemma keeps_obj_invoke h c : keeps obj (invoke W h c).
Proof. intros s. reflexivity. Qed.

Lemma keeps_obj_on x c : keeps obj (on W x c).
Proof. destruct x; [apply keeps_obj_invoke | apply keeps_raise]. Qed.

Lemma keeps_obj_pdbs : keeps obj pdbs.
Proof. intros s. reflexivity. Qed.

Lemma keeps_obj_slot_call c i : keeps obj (slot_call W c i).
Proof.
  unfold slot_call. apply keeps_bind; [apply keeps_obj_pdbs|]. intros l.
  apply keeps_bind; [apply keeps_index|]. intros x. apply keeps_obj_on.
Qed.

Lemma keeps_obj_prepare_all sched prep :
  (forall i, keeps obj (prep i)) ->
  keeps obj (prepare_all this sched prep).
Proof.
  intros Hp s. unfold prepare_all.
  pose proof (keeps_scatter (fun ls : list (option sql_Stmt) * State =>
                               obj ls.2)
                sched (length (Pdbs (obj s))) (prepare_slot prep)) as H.
  assert (Hs : forall i, keeps (fun ls : list (option sql_Stmt) * State =>
                                  obj ls.2) (prepare_slot prep i)).
  { intros i. unfold prepare_slot.
    apply keeps_bind; [apply keeps_with_local, Hp|]. intros r.
    apply keeps_bind; [apply (keeps_store_local obj)|]. intros _.
    apply keeps_ret. }
  specialize (H Hs (replicate (length (Pdbs (obj s))) None, s)).
  destruct (scatter _ _ _ _) as [[[e|]|p] ls]; exact H.
Qed.

Lemma selecting_replica n : selecting (replica n).
Proof.
  intros s. destruct (replica_state n s) as [i ->]. cbn [snd].
  destruct (n <=? 1)%Z; auto.
Qed.

Lemma selecting_bind {A B} (m : M State A) (k : A -> M State B) :
  selecting m -> (forall a, keeps obj (k a)) -> selecting (bind m k).
Proof.
  intros Hm Hk s. unfold bind. specialize (Hm s).
  destruct (m s) as [[a|p] s1]; cbn [snd] in *; [|exact Hm].
  rewrite (Hk a s1). exact Hm.
Qed.

Lemma selecting_Replica : selecting Replica.
Proof.
  intros s. rewrite Replica_unfold.
  apply (selecting_bind _ _ (selecting_replica _)).
  intros i. apply keeps_index_int.
Qed.

Lemma selecting_perform sched m :
  selects m = true -> selecting (perform W this sched m).
Proof.
  destruct m; try discriminate; intros _; cbn [perform];
    unfold void, Query, QueryContext, QueryRow, QueryRowContext, Slave.
  1-4: apply selecting_bind; [|intros; apply keeps_ret];
       apply selecting_bind; [apply selecting_Replica|];
       intros x; exact (keeps_obj_on x _).
  1-2: apply selecting_bind; [apply selecting_Replica|];
       intros; apply keeps_ret.
  apply selecting_bind; [apply selecting_replica | intros; apply keeps_ret].
Qed.

Lemma keeps_obj_perform sched m :
  selects m = false -> keeps obj (perform W this sched m).
Proof.
  destruct m; try discriminate; intros _; cbn [perform];
    unfold Close, Driver, Begin, BeginTx, Exec, ExecContext, Ping,
      PingContext, Prepare, PrepareContext, SetMaxIdleConns,
      SetMaxOpenConns, SetConnMaxLifetime, Master, Primary;
    repeat first
      [ apply keeps_void | apply keeps_obj_slot_call | apply keeps_scatter
      | apply keeps_for_each | apply keeps_obj_prepare_all
      | apply keeps_obj_pdbs | apply keeps_index
      | exact (keeps_obj_on _ _) | apply keeps_bind
      | match goal with |- forall _, _ => intro end ].
Qed.

(** X7.  Only the operations that go through the replica selector
    ([Query], [QueryContext], [QueryRow], [QueryRowContext], [Replica],
    [Slave]) ever write to the receiver, and they write the counter only,
    advancing it by one (modulo 2^64) or not at all.  Every other
    operation, under every schedule and also when it panics, leaves both
    the slot list and the counter as they were. *)
Theorem counter_moved_by_selection_only (sched : list nat) (m : method)
    (s : State) :
  let s' := snd (perform W this sched m s) in
  (selects m = false -> obj s' = obj s) /\
  (selects m = true ->
   Pdbs (obj s') = Pdbs (obj s) /\
   (count (obj s') = count (obj s) \/
    count (obj s') = (count (obj s) + 1) mod 2 ^ 64)).
Proof.
  cbv zeta. split.
  - intros Hm. apply (keeps_obj_perform sched m Hm s).
  - intros Hm. destruct (selecting_perform sched m Hm s) as [-> | ->].
    + auto.
    + split; [reflexivity | right; reflexivity].
Qed.

End ReceiverFrame.

(** X7, on an [Exec] and a [Query] over three live handles. *)
Lemma counter_moved_by_selection_only_witness :
  let s := Demo.state_of 3 0 in
  obj (snd (perform Demo.backend 0%nat [] (Do_Exec "DELETE FROM t" []) s))
  = obj s /\
  count (obj (snd (perform Demo.backend 0%nat [] (Do_Query "SELECT 1" []) s)))
  = 1.
Proof.
  split.
  - apply (@counter_moved_by_selection_only Demo.types Demo.backend 0%nat []
             (Do_Exec "DELETE FROM t" []) (Demo.state_of 3 0)).
    reflexivity.
  - reflexivity.
Defined.

(** ** Fan-out to every physical database *)

Section FanOut.

Context `{T : SqlTypes}.
Variable W : Backend.
Variable c : call.
Variable get : resp c -> option error.
Variable fn : nat -> M State (option error).
Variable hs : list handle.

(** [fn i] is the call [c] on the handle of slot [i]. *)
Hypothesis fn_live : forall i h s,
  Pdbs (obj s) !! i = Some (Some h) ->
  fn i s
  = (Ok (get (respond W h c (trace s))),
     {| obj := obj s;
        trace := trace s ++ [EvCall h c (respond W h c (trace s))] |}).

Lemma run_all_calls order :
  forall s,
    (forall i, i ∈ order -> (i < length hs)%nat) ->
    Pdbs (obj s) = Some <$> hs ->
    exists (called : list (nat * resp c)) s',
      run_all fn order s = (Ok ((fun ir => get ir.2) <$> called), s') /\
      called.*1 = order /\
      obj s' = obj s /\
      trace s' = trace s ++ call_events c hs called /\
      answered W (trace s) (call_events c hs called) /\
      length (call_events c hs called) = length order.
Proof.
  induction order as [|i order IH]; intros s Hin HP.
  - exists [], s. cbn. rewrite app_nil_r. repeat split; auto.
  - destruct (lookup_lt_is_Some_2 hs i ltac:(apply Hin; left)) as [h Hh].
    pose proof (fn_live i h s
                  ltac:(rewrite HP, list_lookup_fmap, Hh; reflexivity))
      as Hstep.
    set (r := respond W h c (trace s)) in *.
    set (s1 := {| obj := obj s; trace := _ |}) in Hstep.
    destruct (IH s1 ltac:(intros j Hj; apply Hin; now right) HP)
      as (called & s' & Hrun & Hfst & Hobj & Htr & Hans & Hlev).
    exists ((i, r) :: called), s'.
    rewrite (call_events_cons c hs _ _ _ _ Hh).
    split.
    { cbn [run_all]. unfold bind at 1. rewrite Hstep.
      unfold bind at 1. rewrite Hrun. reflexivity. }
    split; [cbn; now rewrite Hfst|].
    split; [exact Hobj|].
    split.
    { rewrite Htr. subst s1. cbn [trace]. now rewrite <- app_assoc. }
    split; [split; [reflexivity | exact Hans]|].
    cbn. now rewrite Hlev.
Qed.

Lemma scatter_fans_out sched s :
  Pdbs (obj s) = Some <$> hs ->
  fans_out W c get
    (bind pdbs (fun l => scatter sched (length l) fn)) hs s.
Proof.
  intros HP. unfold fans_out, bind at 1, pdbs.
  assert (Hn : length (Pdbs (obj s)) = length hs)
    by (rewrite HP; apply length_fmap).
  rewrite Hn.
  destruct (run_all_calls (completion_order sched (length hs)) s
              (fun i => completion_order_lt _ _ i) HP)
    as (called & s' & Hrun & Hfst & Hobj & Htr & Hans & Hlev).
  set (rs := (fun ir : nat * resp c => get ir.2) <$> called) in *.
  exists called, (aggregate (failures rs)), s'.
  split; [unfold scatter, bind; rewrite Hrun; reflexivity|].
  split; [exact Hobj|].
  split; [rewrite Hfst; apply completion_order_Permutation|].
  split; [exact Htr|]. split; [exact Hans|].
  split.
  { rewrite Hlev, (completion_order_Permutation sched (length hs)).
    apply length_seq. }
  split; [reflexivity|].
  rewrite aggregate_None, failures_nil. subst rs. split.
  - intros H i r Hir. apply H, list_elem_of_fmap. exists (i, r). auto.
  - intros H x Hx. apply list_elem_of_fmap in Hx as ([i r] & -> & Hir).
    exact (H _ _ Hir).
Qed.

End FanOut.

Section FanOutTheorems.

Context `{T : SqlTypes}.
Variable W : Backend.

(** X8.  On a database of live handles, [Close], [Ping] and [PingContext]
    make the call of the same name exactly once on every handle, under
    every interleaving, and change nothing in the receiver.  They return
    the aggregate of the failures of these calls, which is [nil] exactly
    when every call succeeded; no failure is dropped and a failure on one
    handle does not keep the others from being called.  (The fan-out goes
    through [scatter], as modelled above.) *)
Theorem fan_out_to_every_slot (sched : list nat) (s : State)
    (hs : list handle) (ctx : Context) :
  Pdbs (obj s) = Some <$> hs ->
  fans_out W CClose id (Close W sched) hs s /\
  fans_out W CPing id (Ping W sched) hs s /\
  fans_out W (CPingContext ctx) id (PingContext W sched ctx) hs s.
Proof.
  intros HP. split; [|split].
  - apply (scatter_fans_out W CClose id (slot_call W CClose) hs);
      [|exact HP].
    intros i h s0 H. rewrite (slot_call_live W _ _ _ _ H). reflexivity.
  - apply (scatter_fans_out W CPing id (slot_call W CPing) hs); [|exact HP].
    intros i h s0 H. rewrite (slot_call_live W _ _ _ _ H). reflexivity.
  - apply (scatter_fans_out W (CPingContext ctx) id
             (slot_call W (CPingContext ctx)) hs); [|exact HP].
    intros i h s0 H. rewrite (slot_call_live W _ _ _ _ H). reflexivity.
Qed.

End FanOutTheorems.

(** X8, on a database of three live handles. *)
Lemma fan_out_to_every_slot_witness :
  let s := Demo.state_of 3 0 in
  Pdbs (obj s) = Some <$> [0; 1; 2]%nat /\
  @fans_out Demo.types Demo.backend CPing id (Ping Demo.backend [2; 0]%nat)
    [0; 1; 2]%nat s.
Proof.
  split; [reflexivity|].
  apply (@fan_out_to_every_slot Demo.types Demo.backend [2; 0]%nat
           (Demo.state_of 3 0) [0; 1; 2]%nat tt eq_refl).
Defined.

(** ** What [Open] passes to [sql.Open] and what it returns *)

Module GoStringsPieces.
Import GoStrings.

Lemma Split_no_sep s sep p : p ∈ Split s sep -> Count p sep = O.
Proof.
  revert p. induction s as [|c s IH]; intros p; cbn [Split].
  - intros ->%list_elem_of_singleton. reflexivity.
  - destruct (Ascii.eqb c sep) eqn:E.
    + intros [->|Hp]%elem_of_cons; [reflexivity | auto].
    + destruct (Split s sep) as [|piece pieces].
      * intros ->%list_elem_of_singleton. cbn. now rewrite E.
      * intros [->|Hp]%elem_of_cons.
        -- cbn. rewrite E. apply IH. left.
        -- apply IH. now right.
Qed.

End GoStringsPieces.

Section OpenEvents.

Context `{T : SqlTypes}.
Variable W : Backend.
Variable driverName : string.
Variable conns : list string.

Lemma open_events_inv opened ev :
  ev ∈ open_events driverName conns opened ->
  exists i r dsn,
    (i, r) ∈ opened /\ conns !! i = Some dsn /\ ev = EvOpen driverName dsn r.
Proof.
  unfold open_events. intros H.
  apply list_elem_of_omap in H as ([i r] & Hir & Hev). cbn in Hev.
  destruct (conns !! i) as [dsn|] eqn:E; [|discriminate].
  injection Hev as <-. eauto 6.
Qed.

Lemma answered_open opened :
  forall w,
    answered W w (open_events driverName conns opened) ->
    (forall i r, (i, r) ∈ opened -> (i < length conns)%nat) ->
    forall i r, (i, r) ∈ opened ->
      exists dsn w0,
        conns !! i = Some dsn /\
        r = sql_Open W driverName dsn w0 /\
        EvOpen driverName dsn r ∈ open_events driverName conns opened.
Proof.
  induction opened as [|[j q] opened IH]; intros w Hans Hlt i r Hir.
  - inversion Hir.
  - destruct (lookup_lt_is_Some_2 conns j (Hlt j q ltac:(left))) as [dsn Hd].
    rewrite (open_events_cons driverName conns _ _ _ _ Hd) in Hans |- *.
    destruct Hans as [Hq Hans].
    apply elem_of_cons in Hir as [[= -> ->]|Hir].
    + exists dsn, w. split; [exact Hd|]. split; [exact Hq | left].
    + destruct (IH _ Hans ltac:(intros ? ? ?; eapply Hlt; right; eauto)
                  i r Hir) as (dsn' & w0 & ? & ? & ?).
      exists dsn', w0. split; [assumption|]. split; [assumption | now right].
Qed.

End OpenEvents.

Section OpenResults.

Context `{T : SqlTypes}.
Variable W : Backend.

(** A database that [Open] returns, read off its run. *)
Lemma Open_success sched driverName dataSourceNames w d err w' :
  Open W sched driverName dataSourceNames w = (Ok (Some d, err), w') ->
  let conns := GoStrings.Split dataSourceNames semicolon in
  exists opened : list (nat * (option handle * option error)),
    opened.*1 ≡ₚ seq 0 (length conns) /\
    w' = w ++ open_events driverName conns opened /\
    answered W w (open_events driverName conns opened) /\
    length (Pdbs d) = length conns /\
    count d = 0 /\
    (forall i r, (i, r) ∈ opened -> Pdbs d !! i = Some r.1 /\ r.2 = None).
Proof.
  intros Hopen conns.
  destruct (Open_run W sched driverName dataSourceNames w)
    as (opened & d' & Hrun & Hperm & Hans & _ & Hcnt & Hl & Hfill).
  cbv zeta in Hrun. rewrite Hopen in Hrun.
  exists opened. fold conns in Hrun, Hperm, Hans, Hl.
  destruct (aggregate _) eqn:Ea; [discriminate|].
  injection Hrun as -> _ ->.
  split; [exact Hperm|]. split; [reflexivity|]. split; [exact Hans|].
  split; [exact Hl|]. split; [exact Hcnt|].
  intros i r Hir. split; [exact (Hfill _ _ Hir)|].
  apply aggregate_None in Ea.
  apply (proj1 (failures_nil _) Ea).
  apply list_elem_of_fmap. exists r. split; [reflexivity|].
  apply list_elem_of_fmap. exists (i, r). auto.
Qed.

Lemma opened_lt (opened : list (nat * (option handle * option error))) n :
  opened.*1 ≡ₚ seq 0 n ->
  forall i r, (i, r) ∈ opened -> (i < n)%nat.
Proof.
  intros Hperm i r Hir.
  assert (Hi : i ∈ opened.*1)
    by (apply list_elem_of_fmap; exists (i, r); auto).
  rewrite Hperm, elem_of_seq in Hi. lia.
Qed.

Lemma opened_at (opened : list (nat * (option handle * option error))) n i :
  opened.*1 ≡ₚ seq 0 n -> (i < n)%nat -> exists r, (i, r) ∈ opened.
Proof.
  intros Hperm Hi.
  assert (Hin : i ∈ opened.*1) by (rewrite Hperm, elem_of_seq; lia).
  apply list_elem_of_fmap in Hin as ([j r] & -> & Hir). eauto.
Qed.

Lemma all_live {A} (l : list (option A)) :
  (forall i x, l !! i = Some x -> is_Some x) ->
  exists hs, l = Some <$> hs.
Proof.
  induction l as [|x l IH]; intros H; [exists []; reflexivity|].
  destruct (H 0%nat x eq_refl) as [h ->].
  destruct IH as [hs ->].
  - intros i y Hy. exact (H (Datatypes.S i) y Hy).
  - exists (h :: hs). reflexivity.
Qed.

(** X9.  [Open] passes the driver name unchanged, and never a data source
    that contains a semicolon, to [sql.Open]: it makes one call per
    semicolon of the input plus one, and the data sources it passes are the
    pieces of the input, which joined by semicolons give the input back.
    A data source name that itself needs a semicolon cannot be opened
    through [Open]. *)
Theorem Open_plain_data_sources (sched : list nat)
    (driverName dataSourceNames : string) (w : list event) :
  let conns := GoStrings.Split dataSourceNames semicolon in
  exists evs : list event,
    snd (Open W sched driverName dataSourceNames w) = w ++ evs /\
    length evs = Datatypes.S (GoStrings.Count dataSourceNames semicolon) /\
    Forall (opens_plain_dsn driverName) evs /\
    (forall ev, ev ∈ evs ->
       exists dsn r, ev = EvOpen driverName dsn r /\ dsn ∈ conns) /\
    GoStrings.Join conns semicolon = dataSourceNames.
Proof.
  intros conns.
  destruct (Open_run W sched driverName dataSourceNames w)
    as (opened & d & Hrun & _ & _ & Hlev & _).
  cbv zeta in Hrun. fold conns in Hrun, Hlev.
  exists (open_events driverName conns opened).
  split; [rewrite Hrun; reflexivity|].
  split; [rewrite Hlev; apply GoStringsFacts.Split_length|].
  assert (Hin : forall ev, ev ∈ open_events driverName conns opened ->
            exists dsn r, ev = EvOpen driverName dsn r /\ dsn ∈ conns).
  { intros ev Hev.
    apply open_events_inv in Hev as (i & r & dsn & _ & Hd & ->).
    exists dsn, r. split; [reflexivity|].
    eapply list_elem_of_lookup_2, Hd. }
  split; [|split; [exact Hin | apply GoStringsFacts.Join_Split]].
  apply Forall_forall. intros ev Hev.
  destruct (Hin ev Hev) as (dsn & r & -> & Hd). cbn.
  split; [reflexivity|]. exact (GoStringsPieces.Split_no_sep _ _ _ Hd).
Qed.

(** The slots of a database that [Open] returns, when [sql.Open] keeps its
    contract. *)
Lemma Open_live sched driverName dataSourceNames w w' d err :
  opens_or_fails W ->
  Open W sched driverName dataSourceNames w = (Ok (Some d, err), w') ->
  let conns := GoStrings.Split dataSourceNames semicolon in
  err = None /\ count d = 0 /\
  exists hs : list handle,
    Pdbs d = Some <$> hs /\
    length hs = length conns /\
    forall i h dsn,
      hs !! i = Some h -> conns !! i = Some dsn ->
      EvOpen driverName dsn (Some h, None) ∈ w'.
Proof.
  intros Hc Hopen conns.
  assert (Herr : err = None).
  { destruct (Open_run W sched driverName dataSourceNames w)
      as (opened & d' & Hrun & _).
    cbv zeta in Hrun. rewrite Hopen in Hrun.
    destruct (aggregate _); congruence. }
  split; [exact Herr|].
  destruct (Open_success _ _ _ _ _ _ _ Hopen)
    as (opened & Hperm & -> & Hans & Hl & Hcnt & Hfill).
  split; [exact Hcnt|].
  fold conns in Hperm, Hans, Hl.
  assert (Hlive : forall i x, Pdbs d !! i = Some x ->
            exists h dsn, x = Some h /\ conns !! i = Some dsn /\
              EvOpen driverName dsn (Some h, None)
              ∈ open_events driverName conns opened).
  { intros i x Hx.
    assert (Hi : (i < length conns)%nat)
      by (rewrite <- Hl; eapply lookup_lt_Some, Hx).
    destruct (opened_at _ _ _ Hperm Hi) as [r Hir].
    destruct (Hfill _ _ Hir) as [Hs Hnone].
    destruct (answered_open W driverName conns opened w Hans
                (opened_lt _ _ Hperm) i r Hir)
      as (dsn & w0 & Hd & Hr & Hev).
    assert (Hsome : is_Some r.1) by (rewrite Hr in Hnone |- *; auto).
    destruct Hsome as [h Hh].
    exists h, dsn. rewrite Hx in Hs. injection Hs as ->.
    split; [exact Hh|]. split; [exact Hd|].
    destruct r as [r1 r2]. cbn in Hh, Hnone. subst. exact Hev. }
  assert (Hhs : exists hs, Pdbs d = Some <$> hs).
  { apply all_live. intros i x Hx.
    destruct (Hlive i x Hx) as (h & _ & -> & _). eauto. }
  destruct Hhs as [hs Hhs]. exists hs.
  split; [exact Hhs|].
  split; [rewrite <- Hl, Hhs, length_fmap; reflexivity|].
  intros i h dsn Hh Hd.
  destruct (Hlive i (Some h)
              ltac:(rewrite Hhs, list_lookup_fmap, Hh; reflexivity))
    as (h' & dsn' & [= <-] & Hd' & Hev).
  rewrite Hd in Hd'. injection Hd' as <-.
  apply elem_of_app. right. exact Hev.
Qed.

(** X10.  If [sql.Open] keeps its contract (no error means a handle), every
    slot of a database that [Open] returns holds a live handle, namely the
    one that [sql.Open] returned for the segment of the same position, and
    [Open] returns no error with it. *)
Theorem Open_slots_live (sched : list nat)
    (driverName dataSourceNames : string) (w w' : list event)
    (d : DB) (err : option error) :
  opens_or_fails W ->
  Open W sched driverName dataSourceNames w = (Ok (Some d, err), w') ->
  let conns := GoStrings.Split dataSourceNames semicolon in
  err = None /\
  exists hs : list handle,
    Pdbs d = Some <$> hs /\
    length hs = length conns /\
    forall i h dsn,
      hs !! i = Some h -> conns !! i = Some dsn ->
      EvOpen driverName dsn (Some h, None) ∈ w'.
Proof.
  intros Hc Hopen conns.
  destruct (Open_live _ _ _ _ _ _ _ Hc Hopen) as (He & _ & H).
  split; [exact He | exact H].
Qed.

(** X11.  On a database that [Open] has just returned (with [sql.Open]
    keeping its contract), [Exec] runs on the handle that was opened for
    the first data source.  The first [Query] runs on that same handle
    when there is one data source, on the handle of the second when there
    are two, and on the handle of the third when there are three or more:
    the counter is advanced before it is used, so the round robin starts
    at the second replica. *)
Theorem fresh_database_routing (sched : list nat)
    (driverName dataSourceNames : string) (w w' : list event)
    (d : DB) (err : option error) (query : string) (args : list Arg) :
  opens_or_fails W ->
  Open W sched driverName dataSourceNames w = (Ok (Some d, err), w') ->
  Z.of_nat (length (GoStrings.Split dataSourceNames semicolon)) < 2 ^ 63 ->
  let conns := GoStrings.Split dataSourceNames semicolon in
  let s0 := {| obj := d; trace := w' |} in
  let landed (i : nat) (c : call) (m : M State (resp c)) (s1 : State) :=
    exists h dsn,
      conns !! i = Some dsn /\
      EvOpen driverName dsn (Some h, None) ∈ w' /\
      calls_once W c m h s0 s1 in
  landed 0%nat (CExec query args) (Exec W query args) s0 /\
  (length conns = 1%nat ->
   landed 0%nat (CQuery query args) (Query W query args) s0) /\
  (length conns = 2%nat ->
   landed 1%nat (CQuery query args) (Query W query args) (advanced s0)) /\
  ((3 <= length conns)%nat ->
   landed 2%nat (CQuery query args) (Query W query args) (advanced s0)).
Proof.
  intros Hc Hopen Hmax conns s0 landed.
  destruct (Open_live _ _ _ _ _ _ _ Hc Hopen)
    as (_ & Hcnt & hs & Hhs & Hlen & Hev).
  fold conns in Hlen, Hev, Hmax.
  assert (Hpos : (1 <= length conns)%nat)
    by (unfold conns; rewrite GoStringsFacts.Split_length; lia).
  assert (Hat : forall i, (i < length conns)%nat ->
            exists h dsn, hs !! i = Some h /\ conns !! i = Some dsn /\
              EvOpen driverName dsn (Some h, None) ∈ w').
  { intros i Hi.
    destruct (lookup_lt_is_Some_2 hs i ltac:(lia)) as [h Hh].
    destruct (lookup_lt_is_Some_2 conns i Hi) as [dsn Hd].
    exists h, dsn. eauto. }
  assert (Hq : forall (i : Z) s1,
            replica (Z.of_nat (length hs)) s0 = (Ok i, s1) ->
            0 <= i -> (Z.to_nat i < length conns)%nat ->
            trace s1 = w' ->
            landed (Z.to_nat i) (CQuery query args) (Query W query args) s1).
  { intros i s1 Hr Hi Hlt Htr.
    destruct (Hat _ Hlt) as (h & dsn & Hh & Hd & He).
    exists h, dsn. split; [exact Hd|]. split; [exact He|].
    unfold calls_once, Query. unfold bind at 1.
    rewrite Replica_unfold. unfold bind at 1. cbn [obj s0].
    rewrite Hhs, length_fmap. fold s0. rewrite Hr. unfold index_int.
    destruct (Z.ltb_spec i 0) as [?|_]; [lia|].
    unfold index. rewrite list_lookup_fmap, Hh. reflexivity. }
  split.
  - destruct (Hat 0%nat ltac:(lia)) as (h & dsn & Hh & Hd & He).
    exists h, dsn. split; [exact Hd|]. split; [exact He|].
    unfold calls_once, Exec.
    rewrite (slot_call_live W _ 0%nat h s0)
      by (cbn [obj s0]; rewrite Hhs, list_lookup_fmap, Hh; reflexivity).
    reflexivity.
  - split; [|split]; intros Hn.
    + apply (Hq 0 s0); try reflexivity; try lia.
      apply replica_single. lia.
    + apply (Hq 1 (advanced s0)); try reflexivity; try lia.
      rewrite replica_many by lia. cbn [obj s0 count]. rewrite Hcnt.
      rewrite Hlen, Hn. reflexivity.
    + apply (Hq 2 (advanced s0)); try reflexivity; try lia.
      rewrite replica_many by lia. cbn [obj s0 count]. rewrite Hcnt.
      do 2 f_equal. change ((0 + 1) mod 2 ^ 64) with 1.
      rewrite Z.mod_small by lia. reflexivity.
Qed.

End OpenResults.

(** ** The construction, from the data-source string to the slots *)

Section OpenConstruction.

Context `{T : SqlTypes}.
Variable W : Backend.

(** The first piece of a split is the text before the first separator. *)
Lemma Split_first s sep :
  exists first pieces,
    GoStrings.Split s sep = first :: pieces /\
    GoStrings.Count first sep = O /\
    (s = first \/ exists rest, s = (first ++ String sep rest)%string).
Proof.
  pose proof (GoStringsFacts.Split_nonempty s sep) as Hne.
  pose proof (GoStringsFacts.Join_Split s sep) as HJ.
  pose proof (GoStringsPieces.Split_no_sep s sep) as Hno.
  destruct (GoStrings.Split s sep) as [|first pieces]; [congruence|].
  exists first, pieces. split; [reflexivity|].
  split; [apply Hno; left|].
  destruct pieces as [|q ps].
  - left. now rewrite <- HJ.
  - right. rewrite GoStringsFacts.Join_cons in HJ. eauto.
Qed.

Lemma open_events_elem driverName conns
    (opened : list (nat * (option handle * option error))) i r dsn :
  (i, r) ∈ opened -> conns !! i = Some dsn ->
  EvOpen driverName dsn r ∈ open_events driverName conns opened.
Proof.
  intros Hir Hd. unfold open_events. apply list_elem_of_omap.
  exists (i, r). split; [exact Hir|]. cbn. now rewrite Hd.
Qed.

(** C4.  [Open] cuts the data-source string at every semicolon: the
    segments contain no semicolon, joined by semicolons they give the
    string back, there is one more of them than the string has semicolons,
    and the first of them is the text before the first semicolon.  It calls
    [sql.Open] exactly once for each segment, whatever the interleaving,
    with the driver name and that segment.  If every open succeeds it
    returns, with no error, a database with one slot per segment, slot [i]
    holding the handle opened for segment [i], so slot 0 (the primary) the
    handle opened for the first segment; if any open fails it returns an
    error and no database. *)
Theorem Open_all_or_nothing (sched : list nat)
    (driverName dataSourceNames : string) (w : list event) :
  let conns := GoStrings.Split dataSourceNames semicolon in
  exists (opened : list (nat * (option handle * option error)))
         (res : option DB * option error) (w' : list event),
    (GoStrings.Join conns semicolon = dataSourceNames /\
     (forall dsn, dsn ∈ conns -> GoStrings.Count dsn semicolon = O) /\
     length conns = Datatypes.S (GoStrings.Count dataSourceNames semicolon) /\
     exists first,
       conns !! 0%nat = Some first /\
       GoStrings.Count first semicolon = O /\
       (dataSourceNames = first \/
        exists rest,
          dataSourceNames = (first ++ String semicolon rest)%string)) /\
    Open W sched driverName dataSourceNames w = (Ok res, w') /\
    opened.*1 ≡ₚ seq 0 (length conns) /\
    w' = w ++ open_events driverName conns opened /\
    answered W w (open_events driverName conns opened) /\
    length (open_events driverName conns opened) = length conns /\
    (forall i r, (i, r) ∈ opened ->
       exists dsn, conns !! i = Some dsn /\ EvOpen driverName dsn r ∈ w') /\
    res.2 = aggregate (failures (snd <$> opened.*2)) /\
    ((forall i r, (i, r) ∈ opened -> r.2 = None) ->
     exists d : DB,
       res = (Some d, None) /\ count d = 0 /\
       length (Pdbs d) = length conns /\
       (forall i r, (i, r) ∈ opened -> Pdbs d !! i = Some r.1) /\
       exists first r0,
         conns !! 0%nat = Some first /\
         EvOpen driverName first r0 ∈ w' /\
         Pdbs d !! 0%nat = Some r0.1) /\
    ((exists i r, (i, r) ∈ opened /\ r.2 <> None) ->
     exists err, res = (None, Some err)).
Proof.
  intros conns.
  destruct (Open_run W sched driverName dataSourceNames w)
    as (opened & d & Hopen & Hperm & Hans & Hlev & Hcnt & Hl & Hfill).
  fold conns in Hopen, Hperm, Hans, Hlev, Hl. cbv zeta in Hopen.
  destruct (Split_first dataSourceNames semicolon)
    as (first & pieces & Hsplit & Hfirst & Htext).
  assert (H0 : conns !! 0%nat = Some first)
    by (unfold conns; rewrite Hsplit; reflexivity).
  assert (Hpos : (0 < length conns)%nat)
    by (unfold conns; rewrite Hsplit; simpl; lia).
  assert (Hev : forall i r, (i, r) ∈ opened ->
            exists dsn, conns !! i = Some dsn /\
              EvOpen driverName dsn r
              ∈ w ++ open_events driverName conns opened).
  { intros i r Hir.
    destruct (lookup_lt_is_Some_2 conns i (opened_lt _ _ Hperm i r Hir))
      as [dsn Hd].
    exists dsn. split; [exact Hd|]. apply elem_of_app. right.
    exact (open_events_elem _ _ _ _ _ _ Hir Hd). }
  eexists opened, _, _. split.
  { split; [apply GoStringsFacts.Join_Split|].
    split; [intros dsn; apply GoStringsPieces.Split_no_sep|].
    split; [apply GoStringsFacts.Split_length|].
    exists first. auto. }
  split; [exact Hopen|].
  split; [exact Hperm|]. split; [reflexivity|]. split; [exact Hans|].
  split; [exact Hlev|]. split; [exact Hev|].
  split; [destruct (aggregate _); reflexivity|].
  split.
  - intros Hall. rewrite (all_succeeded _ Hall). exists d.
    split; [reflexivity|]. split; [exact Hcnt|]. split; [exact Hl|].
    split; [exact Hfill|].
    destruct (opened_at opened (length conns) 0%nat Hperm Hpos) as [r0 Hr0].
    destruct (Hev _ _ Hr0) as (dsn & Hd & He).
    rewrite H0 in Hd. injection Hd as <-.
    exists first, r0. split; [exact H0|].
    split; [exact He | exact (Hfill _ _ Hr0)].
  - intros Hsome. destruct (aggregate_Some _ (some_failed _ Hsome)) as [e ->].
    eauto.
Qed.

End OpenConstruction.

(** C4, on three data sources of which the last is opened first, and on
    three of which the second cannot be opened. *)
Lemma Open_all_or_nothing_witness :
  let conns := GoStrings.Split "a;b;c" semicolon in
  conns = ["a"; "b"; "c"]%string /\
  Open Demo.backend [2%nat] "mysql" "a;b;c" []
  = (Ok (Some (Demo.db_with [Some 1%nat; Some 2%nat; Some 0%nat] 0), None),
     [@EvOpen Demo.types "mysql" "c" (Some 0%nat, None);
      @EvOpen Demo.types "mysql" "a" (Some 1%nat, None);
      @EvOpen Demo.types "mysql" "b" (Some 2%nat, None)]) /\
  Open Demo.backend [2%nat] "mysql" "a;bad;c" []
  = (Ok (None, Some (@Cause Demo.types "cannot open")),
     [@EvOpen Demo.types "mysql" "c" (Some 0%nat, None);
      @EvOpen Demo.types "mysql" "a" (Some 1%nat, None);
      @EvOpen Demo.types "mysql" "bad"
        (None, Some (@Cause Demo.types "cannot open"))]) /\
  GoStrings.Join conns semicolon = "a;b;c"%string /\
  (forall dsn, dsn ∈ conns -> GoStrings.Count dsn semicolon = O) /\
  exists first,
    conns !! 0%nat = Some first /\
    ("a;b;c"%string = first \/
     exists rest, "a;b;c"%string = (first ++ String semicolon rest)%string).
Proof.
  cbv zeta. split; [reflexivity|]. split; [reflexivity|].
  split; [reflexivity|].
  destruct (@Open_all_or_nothing Demo.types Demo.backend [2%nat] "mysql"
              "a;b;c" [])
    as (opened & res & w' & (HJ & Hno & _ & first & Hf & _ & Ht) & _).
  split; [exact HJ|]. split; [exact Hno|].
  exists first. split; [exact Hf | exact Ht].
Defined.

Lemma demo_opens_or_fails : opens_or_fails Demo.backend.
Proof.
  intros driverName dsn w. cbn. unfold Demo.demo_open.
  destruct (String.eqb dsn "bad"); cbn; [discriminate | eauto].
Qed.

(** X10, on two data sources. *)
Lemma Open_slots_live_witness :
  let d := Demo.db_with [Some 0%nat; Some 1%nat] 0 in
  let w' := [@EvOpen Demo.types "mysql" "a" (Some 0%nat, None);
             @EvOpen Demo.types "mysql" "b" (Some 1%nat, None)] in
  opens_or_fails Demo.backend /\
  Open Demo.backend [] "mysql" "a;b" [] = (Ok (Some d, None), w') /\
  exists hs : list nat,
    Pdbs d = Some <$> hs /\
    length hs = length (GoStrings.Split "a;b" semicolon).
Proof.
  cbv zeta. split; [exact demo_opens_or_fails|]. split; [reflexivity|].
  destruct (@Open_slots_live Demo.types Demo.backend [] "mysql" "a;b" [] _
              _ _ demo_opens_or_fails eq_refl)
    as (_ & hs & Hhs & Hlen & _).
  exists hs. split; [exact Hhs | exact Hlen].
Defined.

(** X11, on three data sources: the first query goes to the third. *)
Lemma fresh_database_routing_witness :
  let d := Demo.db_with [Some 0%nat; Some 1%nat; Some 2%nat] 0 in
  let w' := [@EvOpen Demo.types "mysql" "a" (Some 0%nat, None);
             @EvOpen Demo.types "mysql" "b" (Some 1%nat, None);
             @EvOpen Demo.types "mysql" "c" (Some 2%nat, None)] in
  let s0 := {| obj := d; trace := w' |} in
  opens_or_fails Demo.backend /\
  Open Demo.backend [] "mysql" "a;b;c" [] = (Ok (Some d, None), w') /\
  exists h dsn,
    GoStrings.Split "a;b;c" semicolon !! 2%nat = Some dsn /\
    @EvOpen Demo.types "mysql" dsn (Some h, None) ∈ w' /\
    @calls_once Demo.types Demo.backend (CQuery "SELECT 1" [])
      (Query Demo.backend "SELECT 1" []) h s0 (advanced s0).
Proof.
  cbv zeta. split; [exact demo_opens_or_fails|]. split; [reflexivity|].
  destruct (@fresh_database_routing Demo.types Demo.backend [] "mysql"
              "a;b;c" [] _ _ _ "SELECT 1" [] demo_opens_or_fails eq_refl
              ltac:(reflexivity))
    as (_ & _ & _ & H3).
  apply H3. cbn. lia.
Defined.

(** ** Selection looks at the counter only *)

Section Health.

Context `{T : SqlTypes}.

(** The slot of the next read, as a function of the receiver alone. *)
Lemma next_read (hs : list handle) (s : State) :
  Pdbs (obj s) = Some <$> hs ->
  (1 <= length hs)%nat ->
  Z.of_nat (length hs) < 2 ^ 63 ->
  let i := if decide (length hs = 1%nat) then 0
           else 1 + ((count (obj s) + 1) mod 2 ^ 64)
                    mod (Z.of_nat (length hs) - 1) in
  let s1 := if decide (length hs = 1%nat) then s else advanced s in
  exists h,
    hs !! Z.to_nat i = Some h /\
    forall (W : Backend) (c : call),
      bind Replica (fun x => on W x c) s
      = (Ok (respond W h c (trace s)),
         {| obj := obj s1;
            trace := trace s ++ [EvCall h c (respond W h c (trace s))] |}).
Proof.
  intros HP Hlen Hmax i s1.
  assert (Hr : replica (Z.of_nat (length hs)) s = (Ok i, s1) /\
               0 <= i < Z.of_nat (length hs) /\ trace s1 = trace s).
  { subst i s1. destruct (decide (length hs = 1%nat)) as [E|NE].
    - rewrite replica_single by lia. repeat split; lia.
    - rewrite replica_many by lia.
      pose proof (Z.mod_pos_bound
        ((count (obj s) + 1) mod 2 ^ 64) (Z.of_nat (length hs) - 1)
        ltac:(lia)).
      repeat split; lia. }
  destruct Hr as (Hr & Hi & Htr).
  destruct (lookup_lt_is_Some_2 hs (Z.to_nat i) ltac:(lia)) as [h Hh].
  exists h. split; [exact Hh|]. intros W c.
  unfold bind at 1. rewrite Replica_unfold. unfold bind at 1.
  rewrite HP, length_fmap, Hr. unfold index_int.
  destruct (Z.ltb_spec i 0) as [?|_]; [lia|].
  unfold index. rewrite list_lookup_fmap, Hh. cbn. unfold invoke.
  rewrite Htr. reflexivity.
Qed.

(** X12.  Which replica a read goes to depends on the slot list and the
    counter only, not on what the physical databases answer or answered
    before: for two driver layers and two histories, [Query] on the same
    receiver makes its one call on the same handle and leaves the same
    receiver.  There is no health-based routing and, a failing answer
    being returned as it is, no retry on another replica. *)
Theorem selection_ignores_answers (W1 W2 : Backend) (s1 s2 : State)
    (hs : list handle) (query : string) (args : list Arg) :
  obj s1 = obj s2 ->
  Pdbs (obj s1) = Some <$> hs ->
  (1 <= length hs)%nat ->
  Z.of_nat (length hs) < 2 ^ 63 ->
  exists (h : handle) (o : DB),
    h ∈ hs /\
    calls_once W1 (CQuery query args) (Query W1 query args) h s1
      {| obj := o; trace := trace s1 |} /\
    calls_once W2 (CQuery query args) (Query W2 query args) h s2
      {| obj := o; trace := trace s2 |}.
Proof.
  intros Ho HP Hlen Hmax.
  destruct (next_read hs s1 HP Hlen Hmax) as (h & Hh & H1).
  destruct (next_read hs s2 ltac:(rewrite <- Ho; exact HP) Hlen Hmax)
    as (h' & Hh' & H2).
  rewrite <- Ho in Hh'. rewrite Hh in Hh'. injection Hh' as <-.
  exists h, (obj (if decide (length hs = 1%nat) then s1 else advanced s1)).
  split; [eapply list_elem_of_lookup_2, Hh|]. split.
  - unfold calls_once, Query. cbn [obj trace]. apply H1.
  - assert (Hobj : obj (if decide (length hs = 1%nat)
                         then s2 else advanced s2)
                    = obj (if decide (length hs = 1%nat)
                           then s1 else advanced s1)).
    { destruct (decide (length hs = 1%nat)); [exact (eq_sym Ho)|].
      unfold advanced. cbn [obj]. now rewrite Ho. }
    unfold calls_once, Query. cbn [obj trace]. rewrite H2, Hobj.
    reflexivity.
Qed.

End Health.

(** X12, on three live handles, for a history with and without events. *)
Lemma selection_ignores_answers_witness :
  let s1 := Demo.state_of 3 4 in
  let s2 := {| obj := Demo.db_of 3 4;
               trace := [@EvCall Demo.types 1%nat CPing None] |} in
  obj s1 = obj s2 /\
  exists (h : nat) (o : @DB Demo.types),
    h ∈ [0; 1; 2]%nat /\
    @calls_once Demo.types Demo.backend (CQuery "SELECT 1" [])
      (Query Demo.backend "SELECT 1" []) h s1
      {| obj := o; trace := trace s1 |} /\
    @calls_once Demo.types Demo.backend (CQuery "SELECT 1" [])
      (Query Demo.backend "SELECT 1" []) h s2
      {| obj := o; trace := trace s2 |}.
Proof.
  split; [reflexivity|].
  apply (@selection_ignores_answers Demo.types Demo.backend Demo.backend
           (Demo.state_of 3 4)
           {| obj := Demo.db_of 3 4;
              trace := [@EvCall Demo.types 1%nat CPing None] |}
           [0; 1; 2]%nat "SELECT 1" [] eq_refl eq_refl);
    [simpl; lia | reflexivity].
Defined.
